(** * Starknet support bot: rate limiter and streaming query client

    A shallow embedding of [bot.py] ([RateLimiter]) and [ai_client.py]
    ([StarknetAI.get_response]) together with the properties stated about
    them in the specification. *)

From Stdlib Require Import ZArith Lia Ascii String DecimalString.
From stdpp Require Import base strings list gmap.

(** ** config.py *)

Module Config.

(** [RATE_LIMIT_PER_CHAT = 20  # messages per hour per chat] *)
Definition RATE_LIMIT_PER_CHAT : nat := 20.

(** [RATE_LIMIT_WINDOW = 3600  # seconds] *)
Definition RATE_LIMIT_WINDOW : Z := 3600.

End Config.

(** ** bot.py: [RateLimiter]

    A [datetime] is represented by its number of microseconds on the local
    clock, a [timedelta] by a number of microseconds; [datetime.now()] is an
    input of every call, so that no assumption on the clock is built in. *)

Module RateLimiter.
Local Open Scope Z_scope.

Definition datetime := Z.

(** [timedelta(seconds=n)] *)
Definition timedelta_seconds (n : Z) : Z := n * 1000000.

(** [self.requests: dict[str, list[datetime]]] *)
Abbreviation requests_t := (gmap string (list datetime)).

(** [__init__]: [self.requests = {}] *)
Definition init : requests_t := ∅.

(** The test of the list comprehension:
    [now - t < timedelta(seconds=RATE_LIMIT_WINDOW)]. *)
Definition in_window (now t : datetime) : Prop :=
  now - t < timedelta_seconds Config.RATE_LIMIT_WINDOW.

#[global] Instance in_window_dec now t : Decision (in_window now t).
Proof. unfold in_window. apply _. Defined.

(** [is_allowed(self, chat_id)], with [now = datetime.now()] and the
    dictionary passed explicitly; [chat_id] is the key after
    [str(chat_id)]. *)
Definition is_allowed (now : datetime) (chat_id : string)
    (requests : requests_t) : bool * requests_t :=
  (* Clean old requests *)
  let cleaned :=
    match requests !! chat_id with
    | Some ts => filter (in_window now) ts
    | None => []
    end in
  let requests1 := <[chat_id := cleaned]> requests in
  (* Check limit *)
  if decide (Config.RATE_LIMIT_PER_CHAT ≤ length cleaned)%nat
  then (false, requests1)
  else (true, <[chat_id := cleaned ++ [now]]> requests1).

(** A sequence of calls [(chat_id, now)], oldest first: the verdicts and
    the final dictionary. *)
Fixpoint run_calls (calls : list (string * datetime))
    (requests : requests_t) : list bool * requests_t :=
  match calls with
  | [] => ([], requests)
  | (chat_id, now) :: rest =>
      let '(ok, requests1) := is_allowed now chat_id requests in
      let '(oks, requests2) := run_calls rest requests1 in
      (ok :: oks, requests2)
  end.

(** The stored window of a conversation ([[]] when it has none yet). *)
Definition window_of (requests : requests_t) (chat_id : string)
    : list datetime :=
  default [] (requests !! chat_id).

(** Number of recorded timestamps of [chat_id] inside the trailing window
    at time [now]. *)
Definition count_in_window (now : datetime) (chat_id : string)
    (requests : requests_t) : nat :=
  length (filter (in_window now) (window_of requests chat_id)).

(** The calls of [chat_id] among [calls] all happen while every timestamp
    of [live] is inside the trailing window. *)
Definition calls_within (chat_id : string) (live : list datetime)
    (calls : list (string * datetime)) : Prop :=
  Forall (λ call, call.1 = chat_id → Forall (in_window call.2) live) calls.

(** The clock readings of a call sequence never go backwards. *)
Fixpoint clock_monotone (calls : list (string * datetime)) : Prop :=
  match calls with
  | [] => True
  | (_, t) :: rest => Forall (λ c, t ≤ c.2) rest ∧ clock_monotone rest
  end.

#[global] Instance clock_monotone_dec calls : Decision (clock_monotone calls).
Proof. induction calls as [|[c t] rest IH]; cbn [clock_monotone]; apply _. Defined.

(** The bound on stored state: every stored window has at most
    [RATE_LIMIT_PER_CHAT] entries, each the clock reading of an earlier
    call. *)
Definition stored_ok (calls : list (string * datetime))
    (requests : requests_t) : Prop :=
  ∀ c ts, requests !! c = Some ts →
    (length ts ≤ Config.RATE_LIMIT_PER_CHAT)%nat ∧
    ∀ t, t ∈ ts → ∃ c', (c', t) ∈ calls.

End RateLimiter.

(** ** Python values seen by the client

    The values [json.loads] produces and the few builtins the client applies
    to them.  A [str] is represented by its UTF-8 bytes. *)

Module Py.

#[warnings="-register-all"]
Inductive json : Type :=
| JNull
| JBool (b : bool)
| JNum (n : Z)
| JStr (s : string)
| JArr (items : list json)
| JObj (fields : list (string * json)).

(** The exception classes the client can meet inside its [try] block, all
    of them subclasses of [Exception]. *)
Inductive exn : Type :=
| TimeoutError
| ClientError        (* connection refused, reset, handshake failure *)
| JSONDecodeError
| KeyError
| TypeError
| AttributeError.

#[global] Instance exn_eq_dec : EqDecision exn.
Proof. solve_decision. Defined.

(** [d.get(key)] on a decoded object: [None] when the key is absent. *)
Fixpoint dict_get (fields : list (string * json)) (key : string)
    : option json :=
  match fields with
  | [] => None
  | (k, v) :: rest => if String.eqb k key then Some v else dict_get rest key
  end.

(** [d.get(key, dflt)] *)
Definition dict_get_default (fields : list (string * json)) (key : string)
    (dflt : json) : json :=
  default dflt (dict_get fields key).

(** [v == "literal"] for a decoded value [v]. *)
Definition eq_str (v : json) (lit : string) : bool :=
  match v with
  | JStr s => String.eqb s lit
  | _ => false
  end.

(** Truth value of a decoded value, as in [if v:]. *)
Definition truthy (v : json) : bool :=
  match v with
  | JNull => false
  | JBool b => b
  | JNum n => negb (n =? 0)%Z
  | JStr s => negb (String.eqb s "")
  | JArr items => match items with [] => false | _ => true end
  | JObj fields => match fields with [] => false | _ => true end
  end.

(** Bytes [10xxxxxx] continue a UTF-8 encoded character. *)
Definition is_continuation (c : Ascii.ascii) : bool :=
  let n := Ascii.nat_of_ascii c in (128 <=? n)%nat && (n <? 192)%nat.

(** [s[:n]] on a [str]: the first [n] characters. *)
Fixpoint str_take (n : nat) (s : string) : string :=
  match s with
  | EmptyString => EmptyString
  | String c rest =>
      if is_continuation c then String c (str_take n rest)
      else match n with
           | O => EmptyString
           | S n' => String c (str_take n' rest)
           end
  end.

(** [v[:3]]: lists and strings can be sliced, nothing else that
    [json.loads] returns can (a [dict] raises [TypeError], or [KeyError]
    from Python 3.12 on; the client handles both alike). *)
Definition slice3 (v : json) : exn + json :=
  match v with
  | JArr items => inr (JArr (take 3 items))
  | JStr s => inr (JStr (str_take 3 s))
  | _ => inl TypeError
  end.

(** [str(n)] for an [int]. *)
Definition str_int (n : Z) : string := NilZero.string_of_int (Z.to_int n).

Definition join (sep : string) (parts : list string) : string :=
  match parts with
  | [] => ""
  | p :: ps => fold_left (λ acc q, acc +:+ sep +:+ q) ps p
  end.

(** [repr(v)].  Python picks the quote of a string and escapes it by
    character class; strings nested in a list or an object are written
    here between single quotes, unescaped. *)
Fixpoint repr (v : json) : string :=
  match v with
  | JNull => "None"
  | JBool true => "True"
  | JBool false => "False"
  | JNum n => str_int n
  | JStr s => "'" +:+ s +:+ "'"
  | JArr items => "[" +:+ join ", " (map repr items) +:+ "]"
  | JObj fields =>
      "{" +:+ join ", "
                (map (λ kv, "'" +:+ kv.1 +:+ "': " +:+ repr kv.2) fields)
          +:+ "}"
  end.

(** [f"{v}"], that is [str(v)]. *)
Definition str (v : json) : string :=
  match v with
  | JStr s => s
  | _ => repr v
  end.

(** [l[start:]] for a list, [start] possibly negative. *)
Definition slice_from {A} (start : Z) (l : list A) : list A :=
  let len := Z.of_nat (length l) in
  let lo := if (start <? 0)%Z then Z.max 0 (len + start) else Z.min start len in
  drop (Z.to_nat lo) l.

End Py.

(** ** ai_client.py: [StarknetAI.get_response]

    The remote service and the network are an input: for each attempt, what
    [ws_connect] and [send_str] do, the messages the channel then delivers,
    and how the iteration over the channel ends.  Releasing the channel and
    the session is taken to succeed. *)

Module AiClient.
Import Py.

(** A row of the conversation store, as [database.get_chat_history]
    selects it ([select("role, message")]): a dictionary that has both
    keys, so that [msg["role"]] and [msg["message"]] cannot fail. *)
Record turn : Type := { role : string; message : string }.

(** One message delivered by [async for msg in ws]. *)
Inductive ws_msg : Type :=
| WSText (loads : option json)
    (* msg.type == TEXT; [json.loads(msg.data)], [None] when it raises *)
| WSOther.
    (* any other message type *)

(** How the iteration over the channel ends once its messages are used
    up: the channel is closed, or receiving raises. *)
Inductive stream_end : Type :=
| Closed
| Raises (e : exn).

Record attempt_env : Type := {
  connect_raises : option exn;
  send_raises : option exn;
  incoming : list ws_msg;
  ending : stream_end
}.

(** What the caller can observe besides the returned value. *)
Inductive event : Type :=
| EvConnect (attempt : nat)
| EvSend (frame : json)
| EvSleep (seconds : nat).

(** The result of a call: a returned string, or the implicit [None] of a
    function body that runs to its end. *)
Inductive outcome : Type :=
| Returned (s : string)
| ReturnedNone.

Definition nl : string := String "010"%char EmptyString.

Definition MSG_ERROR : string :=
  "Sorry, I encountered an error. Please try again.".
Definition MSG_EMPTY : string :=
  "I couldn't generate a response. Please try again.".
Definition MSG_TIMEOUT : string :=
  "Response timeout. Please try with a shorter question.".
Definition MSG_CONNECT : string :=
  "I'm having trouble connecting to the knowledge base. Please try again.".
Definition SOURCES_HEADER : string := nl +:+ nl +:+ "📚 Sources:".

(** [FOCUS_MODES.get("default", "starknetEcosystemSearch")] *)
Definition FOCUS_MODE_DEFAULT : string := "cairoBookSearch".

(** Lines 58-63: convert history to API format. *)
Definition format_role (r : string) : string :=
  if String.eqb r "user" then "human" else "ai".

Definition format_history (history : option (list turn))
    : list (string * string) :=
  match history with
  | None | Some [] => []
  | Some h =>
      fold_left (λ formatted msg,
                   formatted ++ [(format_role (role msg), message msg)])
                (slice_from (-6) h) []
  end.

(** The frame handed to [json.dumps] and [send_str]. *)
Definition query_frame (msg chat_id : string)
    (formatted_history : list (string * string)) : json :=
  JObj [ ("type", JStr "message");
         ("message", JObj [ ("messageId", JStr ("tg-" +:+ chat_id +:+ "-msg"));
                            ("chatId", JStr chat_id);
                            ("content", JStr msg) ]);
         ("copilot", JBool false);
         ("focusMode", JStr FOCUS_MODE_DEFAULT);
         ("history",
          JArr (map (λ rm, JArr [JStr rm.1; JStr rm.2]) formatted_history)) ].

(** The body of the [async for] for one message. *)
Inductive step : Type :=
| Continue (full_response : string) (sources : json)
| Break (full_response : string) (sources : json)
| Return (s : string)
| Raise (e : exn).

Definition on_message (attempt : nat) (msg : ws_msg)
    (full_response : string) (sources : json) : step :=
  match msg with
  | WSOther => Continue full_response sources
  | WSText None => Raise JSONDecodeError
  | WSText (Some (JObj data)) =>
      match dict_get data "type" with
      | None => Raise KeyError
      | Some ty =>
          if eq_str ty "sources" then
            match slice3 (dict_get_default data "data" (JArr [])) with
            | inl e => Raise e
            | inr sources' => Continue full_response sources'
            end
          else if eq_str ty "message" then
            match dict_get_default data "data" (JStr "") with
            | JStr chunk => Continue (full_response +:+ chunk) sources
            | _ => Raise TypeError
            end
          else if eq_str ty "messageEnd" then
            Break full_response sources
          else if eq_str ty "error" then
            if (attempt =? 2)%nat then Return MSG_ERROR
            else Break full_response sources
          else Continue full_response sources
      end
  | WSText (Some _) => Raise AttributeError
      (* [data.get] on a value that is not an object *)
  end.

(** Lines 96-120: the loop over the channel. *)
Inductive loop_result : Type :=
| LoopDone (full_response : string) (sources : json)
| LoopReturn (s : string)
| LoopRaise (e : exn).

Fixpoint receive_loop (attempt : nat) (msgs : list ws_msg)
    (fin : stream_end) (full_response : string) (sources : json)
    : loop_result :=
  match msgs with
  | [] =>
      match fin with
      | Closed => LoopDone full_response sources
      | Raises e => LoopRaise e
      end
  | msg :: rest =>
      match on_message attempt msg full_response sources with
      | Continue full_response' sources' =>
          receive_loop attempt rest fin full_response' sources'
      | Break full_response' sources' => LoopDone full_response' sources'
      | Return s => LoopReturn s
      | Raise e => LoopRaise e
      end
  end.

(** [source.get("metadata", {}).get("url", "")] *)
Definition source_url (source : json) : exn + json :=
  match source with
  | JObj fields =>
      match dict_get_default fields "metadata" (JObj []) with
      | JObj metadata => inr (dict_get_default metadata "url" (JStr ""))
      | _ => inl AttributeError
      end
  | _ => inl AttributeError
  end.

(** Lines 124-127: [for idx, source in enumerate(sources, idx)]. *)
Fixpoint add_sources (idx : nat) (sources : list json)
    (full_response : string) : exn + string :=
  match sources with
  | [] => inr full_response
  | source :: rest =>
      match source_url source with
      | inl e => inl e
      | inr url =>
          add_sources (S idx) rest
            (if truthy url
             then full_response +:+ nl +:+ str_int (Z.of_nat idx)
                                +:+ ". " +:+ str url
             else full_response)
      end
  end.

(** Lines 122-132: the trailer and the returned value. *)
Definition finish (full_response : string) (sources : json)
    : exn + string :=
  let with_trailer :=
    if truthy sources && negb (String.eqb full_response "") then
      match sources with
      | JArr items => add_sources 1 items (full_response +:+ SOURCES_HEADER)
      | _ => inl AttributeError
          (* the items of a non-empty [str] have no [get] *)
      end
    else inr full_response in
  match with_trailer with
  | inl e => inl e
  | inr full_response' =>
      inr (if String.eqb full_response' "" then MSG_EMPTY
           else full_response')
  end.

(** Lines 76-132: the [try] block of one attempt; [inl e] when it raises
    [e], [inr s] when it executes [return s]. *)
Definition attempt_body (attempt : nat) (frame : json) (env : attempt_env)
    : (exn + string) * list event :=
  match connect_raises env with
  | Some e => (inl e, [EvConnect attempt])
  | None =>
      ( match send_raises env with
        | Some e => inl e
        | None =>
            match receive_loop attempt (incoming env) (ending env)
                               "" (JArr []) with
            | LoopRaise e => inl e
            | LoopReturn s => inr s
            | LoopDone full_response sources => finish full_response sources
            end
        end,
        [EvConnect attempt; EvSend frame] )
  end.

(** Lines 134-143: the message the handler of [e] returns on the last
    attempt. *)
Definition handler_message (e : exn) : string :=
  match e with
  | TimeoutError => MSG_TIMEOUT   (* except TimeoutError *)
  | _ => MSG_CONNECT              (* except Exception *)
  end.

(** Lines 74-149: [for attempt in range(3)] with its handlers; both
    handlers sleep one second before the next attempt.  The [finally]
    clause closes the session and swallows any failure of doing so: it
    changes neither the result nor the control flow. *)
Fixpoint retry_loop (attempts : list nat) (frame : json)
    (remote : nat → attempt_env) : outcome * list event :=
  match attempts with
  | [] => (ReturnedNone, [])
  | attempt :: rest =>
      let '(r, tr) := attempt_body attempt frame (remote attempt) in
      match r with
      | inr s => (Returned s, tr)
      | inl e =>
          if (attempt =? 2)%nat then (Returned (handler_message e), tr)
          else
            let '(o, tr') := retry_loop rest frame remote in
            (o, tr ++ EvSleep 1 :: tr')
      end
  end.

Definition get_response (msg chat_id : string)
    (history : option (list turn)) (remote : nat → attempt_env)
    : outcome * list event :=
  let formatted_history := format_history history in
  retry_loop (seq 0 3) (query_frame msg chat_id formatted_history) remote.

End AiClient.

(** ** The protocol's typed events

    The four kinds of frame of the streaming protocol, their encoding as
    decoded channel messages, and what a sequence of events amounts to. *)

Module Events.
Import Py AiClient.

Inductive stream_event : Type :=
| SourcesEvent (sources : list json)
| ChunkEvent (text : string)
| EndEvent (message_id : option string)
| ErrorEvent (detail : string).

Definition frame_of_event (ev : stream_event) : ws_msg :=
  WSText (Some (JObj
    match ev with
    | SourcesEvent sources =>
        [("type", JStr "sources"); ("data", JArr sources)]
    | ChunkEvent text => [("type", JStr "message"); ("data", JStr text)]
    | EndEvent None => [("type", JStr "messageEnd")]
    | EndEvent (Some id) =>
        [("type", JStr "messageEnd"); ("messageId", JStr id)]
    | ErrorEvent detail => [("type", JStr "error"); ("data", JStr detail)]
    end)).

Definition is_terminal (ev : stream_event) : bool :=
  match ev with
  | EndEvent _ | ErrorEvent _ => true
  | _ => false
  end.

(** The first terminal event of a sequence, if any. *)
Fixpoint first_terminal (evs : list stream_event) : option stream_event :=
  match evs with
  | [] => None
  | ev :: rest => if is_terminal ev then Some ev else first_terminal rest
  end.

(** The events in front of the first terminal event. *)
Fixpoint folded (evs : list stream_event) : list stream_event :=
  match evs with
  | [] => []
  | ev :: rest => if is_terminal ev then [] else ev :: folded rest
  end.

(** Concatenation of the [ChunkEvent] payloads, in arrival order. *)
Fixpoint chunks_text (evs : list stream_event) : string :=
  match evs with
  | [] => ""
  | ChunkEvent text :: rest => text +:+ chunks_text rest
  | _ :: rest => chunks_text rest
  end.

(** Payload of the last [SourcesEvent], if there is one. *)
Fixpoint last_sources (evs : list stream_event) : option (list json) :=
  match evs with
  | [] => None
  | SourcesEvent sources :: rest =>
      Some (default sources (last_sources rest))
  | _ :: rest => last_sources rest
  end.

(** The sources kept after [evs], starting from [sources]. *)
Definition sources_after (sources : list json) (evs : list stream_event)
    : list json :=
  match last_sources evs with
  | Some payload => take 3 payload
  | None => sources
  end.

(** A source whose metadata carries the given URL, or none. *)
Definition source_with_url (url : option string) : json :=
  JObj [("metadata",
         JObj match url with
              | Some u => [("url", JStr u)]
              | None => []
              end)].

(** The lines of the trailer: a source with a non-empty URL gets the line
    [idx. url], [idx] being its position in the list counted from the
    given start. *)
Fixpoint trailer_lines (idx : nat) (urls : list string) : string :=
  match urls with
  | [] => ""
  | url :: rest =>
      (if String.eqb url "" then ""
       else nl +:+ str_int (Z.of_nat idx) +:+ ". " +:+ url)
      +:+ trailer_lines (S idx) rest
  end.

(** An attempt that connects, sends, receives [msgs] and then finds the
    channel closed. *)
Definition served (msgs : list ws_msg) : attempt_env :=
  {| connect_raises := None; send_raises := None;
     incoming := msgs; ending := Closed |}.

(** An attempt whose [ws_connect] raises [e]. *)
Definition refused (e : exn) : attempt_env :=
  {| connect_raises := Some e; send_raises := None;
     incoming := []; ending := Closed |}.

(** The end-to-end scenario of the specification: one source with URL
    "https://docs", two chunks, then the end of the message. *)
Definition cairo_scenario : list ws_msg :=
  map frame_of_event
    [ SourcesEvent [source_with_url (Some "https://docs")];
      ChunkEvent "Cairo "; ChunkEvent "is a language.";
      EndEvent None ].

(** [item] is a source whose URL is [url], the empty string when it has
    none. *)
Definition has_url (item : json) (url : string) : Prop :=
  source_url item = inr (JStr url).

(** The attempts and pauses of a trace, sends left out. *)
Fixpoint schedule (tr : list event) : list event :=
  match tr with
  | [] => []
  | EvSend _ :: rest => schedule rest
  | ev :: rest => ev :: schedule rest
  end.

(** [n] attempts with a pause of one second between consecutive ones. *)
Fixpoint paced_from (attempt n : nat) : list event :=
  match n with
  | O => []
  | S O => [EvConnect attempt]
  | S n' => EvConnect attempt :: EvSleep 1 :: paced_from (S attempt) n'
  end.

End Events.

(** ** Further notions used to describe the client and the limiter *)

Module Observations.
Import Py AiClient Events RateLimiter.

(** [len(s)] for a [str]: the number of characters, that is of bytes that
    do not continue a character. *)
Fixpoint py_len (s : string) : nat :=
  match s with
  | EmptyString => O
  | String c rest =>
      if is_continuation c then py_len rest else S (py_len rest)
  end.

(** A channel message the loop of [get_response] passes over: a message
    that is not text, or an object whose [type] is none of the four the
    loop tests for. *)
Definition ignorable (msg : ws_msg) : bool :=
  match msg with
  | WSOther => true
  | WSText (Some (JObj data)) =>
      match dict_get data "type" with
      | Some ty =>
          negb (eq_str ty "sources" || eq_str ty "message"
                || eq_str ty "messageEnd" || eq_str ty "error")
      | None => false
      end
  | WSText _ => false
  end.

(** What the variable [sources] of the loop can hold: a list of at most
    three items, or (after a [sources] frame whose data is a string) a
    string of at most three characters. *)
Definition sources_bounded (sources : json) : Prop :=
  match sources with
  | JArr items => (length items ≤ 3)%nat
  | JStr s => (py_len s ≤ 3)%nat
  | _ => False
  end.

(** The calls of [chat_id] among [calls]. *)
Definition calls_of (chat_id : string) (calls : list (string * datetime))
    : list (string * datetime) :=
  List.filter (λ call, String.eqb call.1 chat_id) calls.

(** The verdicts of the calls of [chat_id], [verdicts] being the verdicts of
    [calls] position by position. *)
Fixpoint verdicts_for (chat_id : string) (calls : list (string * datetime))
    (verdicts : list bool) : list bool :=
  match calls, verdicts with
  | (c, _) :: calls', v :: verdicts' =>
      (if String.eqb c chat_id then [v] else [])
        ++ verdicts_for chat_id calls' verdicts'
  | _, _ => []
  end.

(** The clock readings of the accepted calls of [chat_id], oldest first. *)
Fixpoint accepted (chat_id : string) (calls : list (string * datetime))
    (verdicts : list bool) : list datetime :=
  match calls, verdicts with
  | (c, now) :: calls', v :: verdicts' =>
      (if String.eqb c chat_id && v then [now] else [])
        ++ accepted chat_id calls' verdicts'
  | _, _ => []
  end.

End Observations.

(** ** More of Python's [str] and [range] *)

Module PyStr.
Import Py Observations.

(** [s[n:]] on a [str]: all but the first [n] characters. *)
Fixpoint str_drop (n : nat) (s : string) : string :=
  match s with
  | EmptyString => EmptyString
  | String c rest =>
      if is_continuation c then str_drop n rest
      else match n with
           | O => s
           | S n' => str_drop n' rest
           end
  end.

(** [s[i:j]] for [0 <= i <= j]. *)
Definition str_slice (i j : nat) (s : string) : string :=
  str_take (j - i) (str_drop i s).

(** [range(0, stop, step)] for a positive [step]. *)
Definition range_step (stop step : nat) : list nat :=
  map (λ k, k * step)%nat (seq 0 ((stop + step - 1) / step)).

(** [needle in hay] *)
Fixpoint str_contains (needle hay : string) : bool :=
  String.prefix needle hay ||
  match hay with
  | EmptyString => false
  | String _ rest => str_contains needle rest
  end.

(** [s.replace(old, new)] for a non-empty [old]: the occurrences of [old]
    are replaced from left to right, without overlap. [skip] counts the
    bytes of an occurrence still to pass over. *)
Fixpoint replace_from (skip : nat) (old new s : string) : string :=
  match s with
  | EmptyString => EmptyString
  | String c rest =>
      match skip with
      | S skip' => replace_from skip' old new rest
      | O =>
          if String.prefix old s
          then new +:+ replace_from (String.length old - 1) old new rest
          else String c (replace_from 0 old new rest)
      end
  end.

(** [s.replace("", new)]: [new] goes in front of every character and at the
    end. *)
Fixpoint interleave (new s : string) : string :=
  match s with
  | EmptyString => new
  | String c rest =>
      if is_continuation c then String c (interleave new rest)
      else new +:+ String c (interleave new rest)
  end.

Definition str_replace (old new s : string) : string :=
  match old with
  | EmptyString => interleave new s
  | String _ _ => replace_from 0 old new s
  end.

(** [s] does not begin in the middle of a character, as no [str] does. *)
Definition on_boundary (s : string) : Prop :=
  match s with
  | EmptyString => True
  | String c _ => is_continuation c = false
  end.

(** ["".join(parts)] *)
Definition str_concat (parts : list string) : string :=
  foldr String.append "" parts.

(** Consecutive slices of [n] characters, [k] of them. *)
Definition chunks (n k : nat) (s : string) : list string :=
  map (λ j, str_take n (str_drop (j * n) s)) (seq 0 k).

(** [s * n] *)
Fixpoint str_repeat (n : nat) (s : string) : string :=
  match n with
  | O => EmptyString
  | S n' => s +:+ str_repeat n' s
  end.

Definition bytes (codes : list nat) : string :=
  string_of_list_ascii (map Ascii.ascii_of_nat codes).

(** The characters [str.strip()] removes, in UTF-8: U+0009..U+000D,
    U+001C..U+0020, U+0085, U+00A0, U+1680, U+2000..U+200A, U+2028, U+2029,
    U+202F, U+205F and U+3000. *)
Definition whitespace : list string :=
  map (λ b, bytes [b]) [9; 10; 11; 12; 13; 28; 29; 30; 31; 32]%nat
  ++ [bytes [194; 133]; bytes [194; 160]; bytes [225; 154; 128]]%nat
  ++ map (λ b, bytes [226; 128; b]) (seq 128 11)
  ++ [bytes [226; 128; 168]; bytes [226; 128; 169]; bytes [226; 128; 175];
      bytes [226; 129; 159]; bytes [227; 128; 128]]%nat.

(** [s] without [pat] in front, when it starts with it. *)
Fixpoint strip_prefix (pat s : string) : option string :=
  match pat, s with
  | EmptyString, _ => Some s
  | String a pat', String b s' =>
      if Ascii.eqb a b then strip_prefix pat' s' else None
  | String _ _, EmptyString => None
  end.

Fixpoint strip_one (pats : list string) (s : string) : option string :=
  match pats with
  | [] => None
  | pat :: pats' =>
      match strip_prefix pat s with
      | Some rest => Some rest
      | None => strip_one pats' s
      end
  end.

Fixpoint lstrip_with (fuel : nat) (pats : list string) (s : string) : string :=
  match fuel with
  | O => s
  | S fuel' =>
      match strip_one pats s with
      | Some rest => lstrip_with fuel' pats rest
      | None => s
      end
  end.

Definition str_rev (s : string) : string :=
  string_of_list_ascii (rev (list_ascii_of_string s)).

(** [s.strip()] *)
Definition str_strip (s : string) : string :=
  let left := lstrip_with (String.length s) whitespace s in
  str_rev (lstrip_with (String.length left) (map str_rev whitespace)
                       (str_rev left)).

End PyStr.

(** ** database.py

    The Supabase client is an input: whether one is configured, and what
    the insert and the query of a call do. *)

Module Database.
Import Py AiClient.

(** A row handed to [insert] by [save_message]. *)
Record row : Type := {
  row_user_id : string;
  row_chat_id : string;
  row_chat_type : string;
  row_username : option string;
  row_message : string;
  row_role : string
}.

(** [save_message]: the rows the table gains.  Nothing is inserted without
    a client; a failing insert is logged and swallowed. *)
Definition save_message (client : bool) (insert_raises : option exn)
    (user_id chat_id chat_type : string) (username : option string)
    (message role : string) : list row :=
  if client then
    match insert_raises with
    | None =>
        [ {| row_user_id := user_id; row_chat_id := chat_id;
             row_chat_type := chat_type; row_username := username;
             row_message := str_take 2000 message;  (* message[:2000] *)
             row_role := role |} ]
    | Some _ => []
    end
  else [].

(** [get_chat_history]: [result] is what the query, which asks for the
    newest rows first, returns in [result.data], or the exception it
    raises. *)
Definition get_chat_history (client : bool) (result : exn + list turn)
    : list turn :=
  if client then
    match result with
    | inr data =>
        match data with
        | [] => []
        | _ => rev data      (* list(reversed(result.data)) *)
        end
    | inl _ => []
    end
  else [].

End Database.

(** ** bot.py: metrics and [handle_message]

    Telegram and the database are inputs: for every call the handler makes,
    whether it raises. *)

Module Bot.
Import Py PyStr Observations AiClient RateLimiter Database.

(** [BotMetrics] *)
Record metrics : Type := {
  total_messages : nat;
  successful_responses : nat;
  failed_responses : nat
}.

Definition metrics_init : metrics :=
  {| total_messages := 0; successful_responses := 0; failed_responses := 0 |}.

Definition log_message (m : metrics) : metrics :=
  {| total_messages := S (total_messages m);
     successful_responses := successful_responses m;
     failed_responses := failed_responses m |}.

Definition log_success (m : metrics) : metrics :=
  {| total_messages := total_messages m;
     successful_responses := S (successful_responses m);
     failed_responses := failed_responses m |}.

Definition log_failure (m : metrics) : metrics :=
  {| total_messages := total_messages m;
     successful_responses := successful_responses m;
     failed_responses := S (failed_responses m) |}.

(** The module-level objects [rate_limiter] and [metrics]. *)
Record bot : Type := { limiter : requests_t; stats : metrics }.

Definition bot_init : bot := {| limiter := init; stats := metrics_init |}.

(** What is fixed when the bot starts. *)
Record config : Type := {
  BOT_USERNAME : string;       (* config.BOT_USERNAME *)
  bot_id : Z;                  (* context.bot.id *)
  bot_name : option string;    (* context.bot.username *)
  db_client : bool             (* a Supabase client is configured *)
}.

(** The fields of an [Update] the handler reads. *)
Record update : Type := {
  chat_type : string;                  (* chat.type *)
  chat_id : Z;                         (* chat.id *)
  user : option (Z * option string);   (* effective_user: id, username *)
  text : string;                       (* message.text *)
  message_id : Z;
  reply_to : option (option Z)
    (* message.reply_to_message, and the id of its from_user if it has one *)
}.

(** What the outside does during one call of the handler. *)
Record world : Type := {
  now : datetime;                    (* datetime.now() in the limiter *)
  notice_raises : option exn;        (* reply_text of the rate-limit notice *)
  typing_raises : option exn;        (* send_chat_action *)
  insert_user_raises : option exn;   (* insert of the user's message *)
  select_result : exn + list turn;   (* the history query *)
  remote : nat → attempt_env;        (* the answering service *)
  answer_raises : nat → option exn;  (* reply_text of the k-th answer part *)
  insert_bot_raises : option exn;    (* insert of the bot's answer *)
  apology_raises : option exn        (* reply_text of the error message *)
}.

(** What the handler does to the outside. *)
Inductive effect : Type :=
| Reply (body : string) (reply_to_message_id : option Z)
        (disable_web_page_preview : bool)
| Typing
| Insert (r : row)
| Ai (ev : event).

(** How a call of the handler ends: it returns, or an exception leaves it. *)
Inductive ending : Type :=
| Handled
| Escaped (e : exn).

Definition MSG_RATE_LIMIT : string :=
  "⚠️ Rate limit reached. Please wait a moment before asking again.".
Definition MSG_SORRY : string :=
  "Sorry, I encountered an error. Please try again.".

Definition is_group (u : update) : bool :=
  String.eqb (chat_type u) "group" || String.eqb (chat_type u) "supergroup".

(** Lines 127-144: the question to answer, [inr None] for a group message
    that is to be ignored, [inl e] when looking at the update raises. *)
Definition question (cfg : config) (u : update) : exn + option string :=
  if is_group u then
    let bot_username := "@" +:+ BOT_USERNAME cfg in
    let is_mentioned := str_contains bot_username (text u) in
    match
      match reply_to u with
      | None => inr false
      | Some None => inl AttributeError   (* from_user is None *)
      | Some (Some author) => inr (author =? bot_id cfg)%Z
      end
    with
    | inl e => inl e
    | inr is_reply_to_bot =>
        if negb (is_mentioned || is_reply_to_bot) then inr None
        else inr (Some (str_strip (str_replace bot_username "" (text u))))
    end
  else inr (Some (text u)).

(** The length at which lines 178-184 cut a response. *)
Definition PART_LENGTH : nat := 4000.

(** Line 180: the parts of a response longer than 4000 characters. *)
Definition parts_of (response : string) : list string :=
  map (λ i, str_slice i (i + PART_LENGTH) response)
      (range_step (py_len response) PART_LENGTH).

(** The [for part in parts] loop; [k] numbers the calls of [reply_text]. *)
Fixpoint send_parts (w : world) (k : nat) (parts : list string)
    : option exn * list effect :=
  match parts with
  | [] => (None, [])
  | part :: rest =>
      match answer_raises w k with
      | Some e => (Some e, [])
      | None =>
          let '(r, effs) := send_parts w (S k) rest in
          (r, Reply part None true :: effs)
      end
  end.

(** Lines 177-192: sending the response. *)
Definition send_response (w : world) (u : update) (response : string)
    : option exn * list effect :=
  if (PART_LENGTH <? py_len response)%nat
  then send_parts w 0 (parts_of response)
  else
    match answer_raises w 0%nat with
    | Some e => (Some e, [])
    | None =>
        (None,
         [Reply response (if is_group u then Some (message_id u) else None)
                true])
    end.

(** Lines 158-203: the body of the [try]; [Some e] when it raises [e]. *)
Definition answer (cfg : config) (u : update) (w : world) (q : string)
    : option exn * list effect :=
  match user u with
  | None => (Some AttributeError, [])    (* user.id *)
  | Some (uid, uname) =>
      let chat := str_int (chat_id u) in
      let saved :=
        save_message (db_client cfg) (insert_user_raises w)
                     (str_int uid) chat (chat_type u) uname q "user" in
      let history := get_chat_history (db_client cfg) (select_result w) in
      let '(out, evs) := get_response q chat (Some history) (remote w) in
      let before := map Insert saved ++ map Ai evs in
      match out with
      | ReturnedNone => (Some TypeError, before)    (* len(None) *)
      | Returned response =>
          let '(r, sent) := send_response w u response in
          match r with
          | Some e => (Some e, before ++ sent)
          | None =>
              (None,
               before ++ sent
               ++ map Insert
                    (save_message (db_client cfg) (insert_bot_raises w)
                                  (str_int (bot_id cfg)) chat (chat_type u)
                                  (bot_name cfg) response "assistant"))
          end
      end
  end.

(** [handle_message] *)
Definition handle_message (cfg : config) (u : update) (w : world) (b : bot)
    : ending * bot * list effect :=
  match question cfg u with
  | inl e => (Escaped e, b, [])
  | inr None => (Handled, b, [])    (* Ignore message *)
  | inr (Some q) =>
      (* Count message and check rate limit *)
      let counted := log_message (stats b) in
      let '(ok, requests) :=
        is_allowed (now w) (str_int (chat_id u)) (limiter b) in
      if negb ok then
        match notice_raises w with
        | Some e =>
            (Escaped e, {| limiter := requests; stats := counted |}, [])
        | None =>
            (Handled, {| limiter := requests; stats := counted |},
             [Reply MSG_RATE_LIMIT (Some (message_id u)) false])
        end
      else
        match typing_raises w with
        | Some e =>
            (Escaped e, {| limiter := requests; stats := counted |}, [])
        | None =>
            let '(r, effs) := answer cfg u w q in
            match r with
            | None =>
                (Handled,
                 {| limiter := requests; stats := log_success counted |},
                 Typing :: effs)
            | Some _ =>
                match apology_raises w with
                | Some e =>
                    (Escaped e, {| limiter := requests; stats := counted |},
                     Typing :: effs)
                | None =>
                    (Handled,
                     {| limiter := requests; stats := log_failure counted |},
                     Typing :: effs
                     ++ [Reply MSG_SORRY (Some (message_id u)) false])
                end
            end
        end
  end.

(** A call during which nothing raises: the clock reads [t], the history
    query returns [rows], the service behaves as [service]. *)
Definition calm (t : datetime) (rows : list turn)
    (service : nat → attempt_env) : world :=
  {| now := t; notice_raises := None; typing_raises := None;
     insert_user_raises := None; select_result := inr rows;
     remote := service; answer_raises := λ _, None;
     insert_bot_raises := None; apology_raises := None |}.

(** The bot with the default user name of [config.py]. *)
Definition default_config : config :=
  {| BOT_USERNAME := "starknet_bot"; bot_id := 42;
     bot_name := Some "starknet_bot"; db_client := true |}.

(** The handler applied to a sequence of updates, oldest first. *)
Fixpoint handle_all (cfg : config) (inbox : list (update * world)) (b : bot)
    : bot * list effect :=
  match inbox with
  | [] => (b, [])
  | (u, w) :: rest =>
      let '(_, b1, effs1) := handle_message cfg u w b in
      let '(b2, effs2) := handle_all cfg rest b1 in
      (b2, effs1 ++ effs2)
  end.

(** The bodies of the replies among some effects. *)
Fixpoint replies (effs : list effect) : list string :=
  match effs with
  | [] => []
  | Reply body _ _ :: rest => body :: replies rest
  | _ :: rest => replies rest
  end.

(** A reply Telegram can take: not empty, at most 4000 characters. *)
Definition sendable (body : string) : Prop :=
  body ≠ "" ∧ (py_len body ≤ PART_LENGTH)%nat.

(** The effects that reach the answering service or the database. *)
Fixpoint backend (effs : list effect) : list effect :=
  match effs with
  | [] => []
  | (Ai _ | Insert _) as eff :: rest => eff :: backend rest
  | _ :: rest => backend rest
  end.

End Bot.

(** ** ai_client.py: the address of the channel (lines 65-71) *)

Module Url.
Import Py.

(** The bytes [urllib.parse.quote] never escapes: letters, digits and
    [_.-~]. *)
Definition always_safe (c : Ascii.ascii) : bool :=
  let n := Ascii.nat_of_ascii c in
  ((65 <=? n) && (n <=? 90)) || ((97 <=? n) && (n <=? 122))
  || ((48 <=? n) && (n <=? 57))
  || (n =? 95) || (n =? 46) || (n =? 45) || (n =? 126).

(** One hexadecimal digit, in upper case as [%02X] writes it. *)
Definition hex_digit (n : nat) : Ascii.ascii :=
  Ascii.ascii_of_nat (if n <? 10 then 48 + n else 55 + n).

(** [quote_plus] on one byte of the UTF-8 encoding. *)
Definition quote_byte (c : Ascii.ascii) : string :=
  if always_safe c then String c EmptyString
  else if Ascii.eqb c " " then "+"
  else let n := Ascii.nat_of_ascii c in
       String "%" (String (hex_digit (n / 16))
                          (String (hex_digit (n mod 16)) EmptyString)).

(** [urllib.parse.quote_plus(s)] *)
Fixpoint quote_plus (s : string) : string :=
  match s with
  | EmptyString => EmptyString
  | String c rest => quote_byte c +:+ quote_plus rest
  end.

(** Lines 65-71: [ws_url] followed by the four parameters; the model names
    are quoted, the provider names are not. *)
Definition channel_url (ws_url chat_model chat_provider embedding_model
                        embedding_provider : string) : string :=
  ws_url +:+ "?"
    +:+ join "&"
          [ "chatModel=" +:+ quote_plus chat_model;
            "chatModelProvider=" +:+ chat_provider;
            "embeddingModel=" +:+ quote_plus embedding_model;
            "embeddingModelProvider=" +:+ embedding_provider ].

(** The bytes a quoted name is made of. *)
Definition quoted_byte (c : Ascii.ascii) : bool :=
  always_safe c || Ascii.eqb c "+" || Ascii.eqb c "%".

Fixpoint all_bytes (p : Ascii.ascii → bool) (s : string) : bool :=
  match s with
  | EmptyString => true
  | String c rest => p c && all_bytes p rest
  end.

(** The value of a hexadecimal digit. *)
Definition hex_value (c : Ascii.ascii) : nat :=
  let n := Ascii.nat_of_ascii c in if n <? 58 then n - 48 else n - 55.

(** Reading a quoted name back. *)
Fixpoint unquote_plus (s : string) : string :=
  match s with
  | EmptyString => EmptyString
  | String c rest =>
      if Ascii.eqb c "+" then String " " (unquote_plus rest)
      else if Ascii.eqb c "%" then
        match rest with
        | String a (String b rest') =>
            String (Ascii.ascii_of_nat (hex_value a * 16 + hex_value b))
                   (unquote_plus rest')
        | _ => String c (unquote_plus rest)
        end
      else String c (unquote_plus rest)
  end.

End Url.

(** ** ai_client.py: a call of [get_response] as its caller sees it

    The same code with the two things the caller can meet besides a
    returned string: an exception that leaves the call, and a call that
    does not return.  The rows of the history are the dictionaries the
    caller passes, which may lack a key; the channel of an attempt, once
    its messages are used up, closes, raises, or stays silent, and the
    loop of line 96 waits on it without a deadline. *)

Module AiClientCall.
Import Py AiClient.

(** A row of [history]: a dictionary. *)
Abbreviation history_row := (list (string * json)).

(** Lines 61-63 on the rows of [history[-6:]]: [msg["role"]] and
    [msg["message"]] raise [KeyError] on a row without the key. *)
Fixpoint format_rows (rows : list history_row)
    (formatted_history : list (string * json)) : exn + list (string * json) :=
  match rows with
  | [] => inr formatted_history
  | msg :: rest =>
      match dict_get msg "role" with
      | None => inl KeyError
      | Some r =>
          let role := if eq_str r "user" then "human" else "ai" in
          match dict_get msg "message" with
          | None => inl KeyError
          | Some m => format_rows rest (formatted_history ++ [(role, m)])
          end
      end
  end.

(** Lines 58-63. *)
Definition format_history_rows (history : option (list history_row))
    : exn + list (string * json) :=
  match history with
  | None | Some [] => inr []
  | Some h => format_rows (slice_from (-6) h) []
  end.



(** The frame handed to [json.dumps] and [send_str]. *)
Definition query_frame_rows (msg chat_id : string)
    (formatted_history : list (string * json)) : json :=
  JObj [ ("type", JStr "message");
         ("message", JObj [ ("messageId", JStr ("tg-" +:+ chat_id +:+ "-msg"));
                            ("chatId", JStr chat_id);
                            ("content", JStr msg) ]);
         ("copilot", JBool false);
         ("focusMode", JStr FOCUS_MODE_DEFAULT);
         ("history",
          JArr (map (λ rm, JArr [JStr rm.1; rm.2]) formatted_history)) ].

(** How the channel behaves once its messages are used up. *)
Inductive channel_end : Type :=
| Ends (fin : stream_end)   (* it closes, or receiving raises *)
| Silent.                   (* nothing arrives and it stays open *)

Record service_env : Type := {
  svc_connect : option exn;
  svc_send : option exn;
  svc_incoming : list ws_msg;
  svc_ending : channel_end
}.

(** An attempt of the finite kind. *)
Definition ending_env (env : attempt_env) : service_env :=
  {| svc_connect := connect_raises env; svc_send := send_raises env;
     svc_incoming := incoming env; svc_ending := Ends (ending env) |}.

(** Lines 96-120; [None] when the loop waits for ever. *)
Fixpoint receive_or_wait (attempt : nat) (msgs : list ws_msg)
    (fin : channel_end) (full_response : string) (sources : json)
    : option loop_result :=
  match msgs with
  | [] =>
      match fin with
      | Ends Closed => Some (LoopDone full_response sources)
      | Ends (Raises e) => Some (LoopRaise e)
      | Silent => None
      end
  | msg :: rest =>
      match on_message attempt msg full_response sources with
      | Continue full_response' sources' =>
          receive_or_wait attempt rest fin full_response' sources'
      | Break full_response' sources' =>
          Some (LoopDone full_response' sources')
      | Return s => Some (LoopReturn s)
      | Raise e => Some (LoopRaise e)
      end
  end.

(** What becomes of the [try] block of an attempt. *)
Inductive attempt_result : Type :=
| Raised (e : exn)
| Answered (s : string)
| Waiting.

(** Lines 76-132. *)
Definition attempt_call (attempt : nat) (frame : json) (env : service_env)
    : attempt_result * list event :=
  match svc_connect env with
  | Some e => (Raised e, [EvConnect attempt])
  | None =>
      ( match svc_send env with
        | Some e => Raised e
        | None =>
            match receive_or_wait attempt (svc_incoming env) (svc_ending env)
                                  "" (JArr []) with
            | None => Waiting
            | Some (LoopRaise e) => Raised e
            | Some (LoopReturn s) => Answered s
            | Some (LoopDone full_response sources) =>
                match finish full_response sources with
                | inl e => Raised e
                | inr s => Answered s
                end
            end
        end,
        [EvConnect attempt; EvSend frame] )
  end.

(** How a call ends for its caller. *)
Inductive call_result : Type :=
| Returns (s : string)
| ReturnsNothing            (* the body runs to its end *)
| RaisesToCaller (e : exn)
| NeverReturns.

(** Lines 74-149. *)
Fixpoint retry_call (attempts : list nat) (frame : json)
    (remote : nat → service_env) : call_result * list event :=
  match attempts with
  | [] => (ReturnsNothing, [])
  | attempt :: rest =>
      let '(r, tr) := attempt_call attempt frame (remote attempt) in
      match r with
      | Answered s => (Returns s, tr)
      | Waiting => (NeverReturns, tr)
      | Raised e =>
          if (attempt =? 2)%nat then (Returns (handler_message e), tr)
          else
            let '(o, tr') := retry_call rest frame remote in
            (o, tr ++ EvSleep 1 :: tr')
      end
  end.

(** Lines 53-149: the conversion of the history runs before the [try]. *)
Definition get_response_call (msg chat_id : string)
    (history : option (list history_row)) (remote : nat → service_env)
    : call_result * list event :=
  match format_history_rows history with
  | inl e => (RaisesToCaller e, [])
  | inr formatted_history =>
      retry_call (seq 0 3) (query_frame_rows msg chat_id formatted_history)
                 remote
  end.

(** The dictionary of a row that has both keys, and the result of a call
    of the other model read as a result for the caller. *)
Definition row_of_turn (t : turn) : history_row :=
  [("role", JStr (role t)); ("message", JStr (message t))].

Definition result_of_outcome (o : outcome) : call_result :=
  match o with
  | Returned s => Returns s
  | ReturnedNone => ReturnsNothing
  end.

End AiClientCall.

(** ** RateLimiter: proofs *)

Module RateLimiterProofs.
Import RateLimiter.
Local Open Scope Z_scope.

Lemma is_allowed_lookup now c requests :
  (is_allowed now c requests).2 !! c =
    Some (filter (in_window now) (window_of requests c)
          ++ (if (is_allowed now c requests).1 then [now] else [])).
Proof.
  unfold is_allowed, window_of.
  destruct (requests !! c) as [ts|] eqn:E; cbn [default];
    case_decide; cbn [fst snd];
    rewrite ?lookup_insert_eq, ?app_nil_r; done.
Qed.

Lemma is_allowed_other now c c' requests :
  c ≠ c' → (is_allowed now c requests).2 !! c' = requests !! c'.
Proof.
  intros Hne. unfold is_allowed.
  case_decide; cbn [fst snd]; rewrite !lookup_insert_ne by done; done.
Qed.

Lemma is_allowed_verdict now c requests :
  (is_allowed now c requests).1 = false ↔
  (Config.RATE_LIMIT_PER_CHAT ≤ count_in_window now c requests)%nat.
Proof.
  unfold is_allowed, count_in_window, window_of.
  destruct (requests !! c) as [ts|]; cbn [default]; case_decide;
    cbn [fst snd]; split; intros; try done; try lia.
Qed.

Lemma window_of_is_allowed now c requests :
  window_of (is_allowed now c requests).2 c =
    filter (in_window now) (window_of requests c)
    ++ (if (is_allowed now c requests).1 then [now] else []).
Proof. unfold window_of at 1. by rewrite is_allowed_lookup. Qed.

Lemma window_of_is_allowed_ne now c c' requests :
  c ≠ c' → window_of (is_allowed now c requests).2 c' = window_of requests c'.
Proof. intros Hne. unfold window_of. by rewrite is_allowed_other. Qed.

Lemma run_calls_cons c now rest requests :
  run_calls ((c, now) :: rest) requests =
    ((is_allowed now c requests).1
       :: (run_calls rest (is_allowed now c requests).2).1,
     (run_calls rest (is_allowed now c requests).2).2).
Proof.
  cbn [run_calls]. destruct (is_allowed now c requests) as [ok r1].
  cbn [fst snd]. by destruct (run_calls rest r1).
Qed.

Lemma run_calls_app_state calls1 calls2 requests :
  (run_calls (calls1 ++ calls2) requests).2 =
    (run_calls calls2 (run_calls calls1 requests).2).2.
Proof.
  revert requests. induction calls1 as [|[c now] calls1 IH]; intros requests.
  - done.
  - rewrite <- app_comm_cons, !run_calls_cons. cbn [snd]. apply IH.
Qed.

Lemma sublist_filter_all {A} (P : A → Prop) `{!∀ x, Decision (P x)}
    (l1 l2 : list A) :
  l1 `sublist_of` l2 → Forall P l1 → l1 `sublist_of` filter P l2.
Proof.
  induction 1 as [|x l1 l2 Hsub IH|x l1 l2 Hsub IH]; intros HP.
  - constructor.
  - apply Forall_cons in HP as [Hx HP].
    rewrite filter_cons_True by done. constructor. by apply IH.
  - rewrite filter_cons. case_decide; [constructor|]; by apply IH.
Qed.

(** Once a conversation holds [RATE_LIMIT_PER_CHAT] timestamps that stay
    inside the window, its calls are denied and record nothing. *)
Lemma saturated_stays_denied calls c requests live :
  live `sublist_of` window_of requests c →
  (Config.RATE_LIMIT_PER_CHAT ≤ length live)%nat →
  (∀ now, (c, now) ∈ calls → Forall (in_window now) live) →
  (∀ i now, calls !! i = Some (c, now) →
            (run_calls calls requests).1 !! i = Some false) ∧
  live `sublist_of` window_of (run_calls calls requests).2 c ∧
  window_of (run_calls calls requests).2 c `sublist_of` window_of requests c.
Proof.
  revert requests.
  induction calls as [|[c0 now0] calls IH]; intros requests Hsub Hlen Hwin.
  - split; [intros i now Hi; by rewrite lookup_nil in Hi | done].
  - rewrite run_calls_cons. cbn [fst snd].
    assert (Hrest : ∀ now, (c, now) ∈ calls → Forall (in_window now) live).
    { intros now Hin. apply Hwin. by apply list_elem_of_further. }
    destruct (decide (c0 = c)) as [->|Hne].
    + assert (Hlive : live `sublist_of`
                        filter (in_window now0) (window_of requests c)).
      { apply sublist_filter_all; [done|]. apply Hwin. left. }
      assert (Hdeny : (is_allowed now0 c requests).1 = false).
      { apply is_allowed_verdict. unfold count_in_window.
        apply sublist_length in Hlive. lia. }
      assert (Hw : window_of (is_allowed now0 c requests).2 c =
                     filter (in_window now0) (window_of requests c)).
      { by rewrite window_of_is_allowed, Hdeny, app_nil_r. }
      destruct (IH (is_allowed now0 c requests).2) as (Hv & Hlo & Hhi);
        [by rewrite Hw | done | done |].
      split; [|split].
      * intros [|i] now Hi; cbn in Hi |- *; [by rewrite Hdeny | by eapply Hv].
      * done.
      * etrans; [exact Hhi|]. rewrite Hw. apply sublist_filter.
    + destruct (IH (is_allowed now0 c0 requests).2) as (Hv & Hlo & Hhi);
        [by rewrite window_of_is_allowed_ne | done | done |].
      rewrite window_of_is_allowed_ne in Hhi by done.
      split; [|done].
      intros [|i] now Hi; cbn in Hi |- *; [congruence | by eapply Hv].
Qed.

Lemma stored_ok_init : stored_ok [] init.
Proof. intros c ts Hc. unfold init in Hc. by rewrite lookup_empty in Hc. Qed.

Lemma stored_ok_is_allowed calls c now requests :
  stored_ok calls requests →
  stored_ok (calls ++ [(c, now)]) (is_allowed now c requests).2.
Proof.
  intros Hok c1 ts Hc1. destruct (decide (c = c1)) as [<-|Hne].
  - rewrite is_allowed_lookup in Hc1. injection Hc1 as <-.
    assert (Hold : (length (window_of requests c)
                      ≤ Config.RATE_LIMIT_PER_CHAT)%nat ∧
                   ∀ t, t ∈ window_of requests c → ∃ c', (c', t) ∈ calls).
    { unfold window_of. destruct (requests !! c) as [ts|] eqn:E; cbn.
      - by apply (Hok c).
      - split; [lia|]. intros t Ht. by apply elem_of_nil in Ht. }
    destruct Hold as [Hlen Hmem].
    pose proof (sublist_length _ _
                  (sublist_filter (in_window now) (window_of requests c)))
      as Hfl.
    split.
    + rewrite length_app.
      destruct (is_allowed now c requests).1 eqn:Hv; cbn; [|lia].
      assert (¬ (Config.RATE_LIMIT_PER_CHAT
                   ≤ count_in_window now c requests)%nat) as Hlt.
      { rewrite <- is_allowed_verdict. congruence. }
      unfold count_in_window in Hlt. lia.
    + intros t Ht. apply elem_of_app in Ht as [Ht|Ht].
      * apply list_elem_of_filter in Ht as [_ Ht].
        destruct (Hmem t Ht) as [c' Hc']. exists c'.
        apply elem_of_app. by left.
      * destruct (is_allowed now c requests).1;
          [|by apply elem_of_nil in Ht].
        apply list_elem_of_singleton in Ht as ->. exists c.
        apply elem_of_app. right. by apply list_elem_of_singleton.
  - rewrite is_allowed_other in Hc1 by done.
    destruct (Hok c1 ts Hc1) as [Hlen Hmem]. split; [done|].
    intros t Ht. destruct (Hmem t Ht) as [c' Hc']. exists c'.
    apply elem_of_app. by left.
Qed.

Lemma stored_ok_run_calls calls :
  stored_ok calls (run_calls calls init).2.
Proof.
  induction calls as [|[c now] calls IH] using rev_ind.
  - apply stored_ok_init.
  - rewrite run_calls_app_state, run_calls_cons. cbn [run_calls snd].
    by apply stored_ok_is_allowed.
Qed.

Lemma clock_monotone_last calls c now :
  clock_monotone (calls ++ [(c, now)]) →
  ∀ c' t, (c', t) ∈ calls → t ≤ now.
Proof.
  induction calls as [|[c0 t0] calls IH]; intros Hmono c' t Hin.
  - by apply elem_of_nil in Hin.
  - cbn in Hmono. destruct Hmono as [Hhd Htl].
    apply elem_of_cons in Hin as [Heq|Hin].
    + injection Heq as -> ->.
      rewrite Forall_app, Forall_singleton in Hhd. by destruct Hhd.
    + by eapply IH.
Qed.

(** C3: a call is denied exactly when the conversation already has
    [RATE_LIMIT_PER_CHAT] (20) recorded timestamps inside the trailing
    [RATE_LIMIT_WINDOW] (3600 s); every check replaces the stored window by
    its entries still inside the window and only an accepted call appends
    the current time, so a denied call records nothing; and once 20
    recorded timestamps are inside the window, every further call of that
    conversation made while they remain inside it returns false and leaves
    them as they are, whatever calls other conversations make. *)
Theorem rate_limiter_denies_past_limit :
  (∀ now c requests,
     (is_allowed now c requests).1 = false ↔
     (Config.RATE_LIMIT_PER_CHAT ≤ count_in_window now c requests)%nat) ∧
  (∀ now c requests,
     window_of (is_allowed now c requests).2 c =
       filter (in_window now) (window_of requests c)
       ++ (if (is_allowed now c requests).1 then [now] else [])) ∧
  (∀ calls c requests live,
     live `sublist_of` window_of requests c →
     (Config.RATE_LIMIT_PER_CHAT ≤ length live)%nat →
     calls_within c live calls →
     (∀ i now, calls !! i = Some (c, now) →
               (run_calls calls requests).1 !! i = Some false) ∧
     live `sublist_of` window_of (run_calls calls requests).2 c ∧
     window_of (run_calls calls requests).2 c
       `sublist_of` window_of requests c).
Proof.
  split; [exact is_allowed_verdict|].
  split; [exact window_of_is_allowed|].
  intros calls c requests live Hsub Hlen Hwithin.
  apply saturated_stays_denied; [done..|].
  intros now Hin. unfold calls_within in Hwithin.
  rewrite Forall_forall in Hwithin. by apply (Hwithin (c, now)).
Qed.

(** Twenty accepted calls one second apart, then two calls of the same
    conversation and one of another inside the hour. *)
Lemma rate_limiter_denies_past_limit_witness :
  let second := timedelta_seconds 1 in
  let accepted := map (λ n, ("c1", Z.of_nat n * second)) (seq 0 20) in
  let requests := (run_calls accepted init).2 in
  let calls := [("c1", 20 * second); ("c2", 21 * second);
                ("c1", 3599 * second)] in
  (run_calls accepted init).1 = replicate 20 true ∧
  (run_calls calls requests).1 !! 0%nat = Some false ∧
  (run_calls calls requests).1 !! 2%nat = Some false ∧
  window_of (run_calls calls requests).2 "c1" `sublist_of`
    window_of requests "c1".
Proof.
  intros second accepted requests calls.
  assert (Hsub : window_of requests "c1" `sublist_of` window_of requests "c1")
    by reflexivity.
  assert (Hfull : (Config.RATE_LIMIT_PER_CHAT
                     ≤ length (window_of requests "c1"))%nat)
    by compute_done.
  assert (Hwithin : calls_within "c1" (window_of requests "c1") calls)
    by (unfold calls_within; compute_done).
  pose proof (proj2 (proj2 rate_limiter_denies_past_limit)
                calls "c1" requests _ Hsub Hfull Hwithin)
    as (Hdeny & _ & Hsame).
  split; [compute_done|].
  split; [apply (Hdeny 0%nat (20 * second)); reflexivity|].
  split; [apply (Hdeny 2%nat (3599 * second)); reflexivity|].
  exact Hsame.
Defined.

(** C10: after every call, made after any sequence of earlier calls on a
    fresh limiter, every stored window holds at most [RATE_LIMIT_PER_CHAT]
    (20) timestamps, and the window of the conversation just served holds
    only timestamps less than [RATE_LIMIT_WINDOW] seconds before the time
    of that call (none of them after it when the clock never goes
    backwards). *)
Theorem stored_window_bounded calls c now :
  let final := (run_calls (calls ++ [(c, now)]) init).2 in
  (∀ c' ts', final !! c' = Some ts' →
             (length ts' ≤ Config.RATE_LIMIT_PER_CHAT)%nat) ∧
  ∃ ts, final !! c = Some ts ∧
        (length ts ≤ Config.RATE_LIMIT_PER_CHAT)%nat ∧
        Forall (λ t, now - t < timedelta_seconds Config.RATE_LIMIT_WINDOW)
               ts ∧
        (clock_monotone (calls ++ [(c, now)]) → Forall (λ t, t ≤ now) ts).
Proof.
  intros final.
  pose proof (stored_ok_run_calls (calls ++ [(c, now)])) as Hok.
  fold final in Hok.
  split; [intros c' ts' Hc'; by apply (Hok c' ts')|].
  assert (Hfin : final = (is_allowed now c (run_calls calls init).2).2).
  { unfold final. by rewrite run_calls_app_state, run_calls_cons. }
  pose proof (is_allowed_lookup now c (run_calls calls init).2) as Hlk.
  rewrite <- Hfin in Hlk. eexists. split; [exact Hlk|].
  destruct (Hok c _ Hlk) as [Hlen Hmem].
  split; [done|]. split.
  - apply Forall_app. split.
    + apply Forall_forall. intros t Ht.
      by apply list_elem_of_filter in Ht as [Ht _].
    + destruct (is_allowed now c _).1; [|constructor].
      apply Forall_singleton. unfold timedelta_seconds.
      unfold Config.RATE_LIMIT_WINDOW. lia.
  - intros Hmono. apply Forall_forall. intros t Ht.
    destruct (Hmem t Ht) as [c' Hc'].
    apply elem_of_app in Hc' as [Hc'|Hc'].
    + by eapply clock_monotone_last.
    + apply list_elem_of_singleton in Hc'. injection Hc' as _ ->. lia.
Qed.

(** Twenty-two calls of one conversation one second apart and a call of
    another: the stored window stops at twenty entries. *)
Lemma stored_window_bounded_witness :
  let second := timedelta_seconds 1 in
  let calls := map (λ n, ("c1", Z.of_nat n * second)) (seq 0 21)
               ++ [("c2", 21 * second)] in
  clock_monotone (calls ++ [("c1", 22 * second)]) ∧
  ∃ ts, (run_calls (calls ++ [("c1", 22 * second)]) init).2 !! "c1"
          = Some ts ∧
        (length ts ≤ 20)%nat ∧ Forall (λ t, t ≤ 22 * second) ts.
Proof.
  intros second calls.
  assert (Hmono : clock_monotone (calls ++ [("c1", 22 * second)]))
    by compute_done.
  split; [exact Hmono|].
  destruct (stored_window_bounded calls "c1" (22 * second))
    as (_ & ts & Hlk & Hlen & _ & Hle).
  exists ts. split; [exact Hlk|]. split; [exact Hlen|]. exact (Hle Hmono).
Defined.

End RateLimiterProofs.

(** ** StarknetAI.get_response: proofs *)

Module AiClientProofs.
Import Py AiClient Events.

Lemma app_str_nil_r (s : string) : s +:+ "" = s.
Proof. induction s as [|c s IH]; [done|]. cbv [String.app] in *. cbn. by rewrite IH. Qed.

Lemma app_str_assoc (s1 s2 s3 : string) :
  (s1 +:+ s2) +:+ s3 = s1 +:+ (s2 +:+ s3).
Proof.
  induction s1 as [|c s1 IH]; [done|].
  cbv [String.app] in *. cbn. by rewrite IH.
Qed.

Lemma app_str_nonempty (s1 s2 : string) :
  String.eqb s1 "" = false → String.eqb (s1 +:+ s2) "" = false.
Proof. by destruct s1. Qed.

(** *** The loop over the channel on encoded events *)

Lemma receive_events attempt evs rest fin text sources :
  first_terminal evs = None →
  receive_loop attempt (map frame_of_event evs ++ rest) fin
               text (JArr sources) =
  receive_loop attempt rest fin (text +:+ chunks_text evs)
               (JArr (sources_after sources evs)).
Proof.
  revert text sources.
  induction evs as [|ev evs IH]; intros text sources Hnt.
  - cbn. by rewrite app_str_nil_r.
  - destruct ev as [payload|chunk|mid|detail]; cbn in Hnt; try done.
    + cbn. rewrite IH by done. unfold sources_after. cbn.
      by destruct (last_sources evs).
    + cbn. rewrite IH by done. by rewrite app_str_assoc.
Qed.

Lemma split_at_terminal evs :
  first_terminal (folded evs) = None ∧
  match first_terminal evs with
  | None => folded evs = evs
  | Some ev => is_terminal ev = true ∧
               ∃ after, evs = folded evs ++ ev :: after
  end.
Proof.
  induction evs as [|ev evs [IH1 IH2]]; [done|].
  cbn. destruct (is_terminal ev) eqn:Hterm.
  - split; [done|]. split; [done|]. by exists evs.
  - cbn. rewrite Hterm. split; [done|].
    destruct (first_terminal evs) as [ev'|].
    + destruct IH2 as [Hev' [after Hafter]]. split; [done|].
      exists after. by rewrite <- Hafter.
    + by rewrite IH2.
Qed.

Lemma receive_events_result attempt evs fin text sources :
  receive_loop attempt (map frame_of_event evs) fin text (JArr sources) =
    let text' := text +:+ chunks_text (folded evs) in
    let sources' := JArr (sources_after sources (folded evs)) in
    match first_terminal evs with
    | Some (ErrorEvent _) =>
        if (attempt =? 2)%nat then LoopReturn MSG_ERROR
        else LoopDone text' sources'
    | Some _ => LoopDone text' sources'
    | None =>
        match fin with
        | Closed => LoopDone text' sources'
        | Raises e => LoopRaise e
        end
    end.
Proof.
  destruct (split_at_terminal evs) as [Hnt Hsplit].
  remember (folded evs) as pre eqn:Hpre.
  destruct (first_terminal evs) as [ev|].
  - destruct Hsplit as [Hterm [after ->]].
    rewrite map_app, receive_events by done.
    destruct ev as [payload|chunk|[mid|]|detail]; try done.
    cbn. by destruct (attempt =? 2)%nat.
  - rewrite <- Hsplit, <- (app_nil_r (map _ _)), receive_events by done.
    by destruct fin.
Qed.

Lemma receive_loop_events attempt evs fin :
  receive_loop attempt (map frame_of_event evs) fin "" (JArr []) =
    let text := chunks_text (folded evs) in
    let sources :=
      JArr (take 3 (default [] (last_sources (folded evs)))) in
    match first_terminal evs with
    | Some (ErrorEvent _) =>
        if (attempt =? 2)%nat then LoopReturn MSG_ERROR
        else LoopDone text sources
    | Some _ => LoopDone text sources
    | None =>
        match fin with
        | Closed => LoopDone text sources
        | Raises e => LoopRaise e
        end
    end.
Proof.
  rewrite receive_events_result. unfold sources_after. cbn zeta.
  by destruct (last_sources (folded evs)).
Qed.

(** C6: folding any finite sequence of stream events, the accumulated text
    is the concatenation of the [ChunkEvent] payloads received before the
    first terminal event, in arrival order, and the sources are the first
    three of the payload of the last [SourcesEvent] received before it;
    [Chunk a; Chunk b; Sources [s1;s2;s3;s4]; End] gives text "ab" and
    sources s1, s2, s3. *)
Theorem aggregator_fold :
  (∀ attempt evs fin,
     receive_loop attempt (map frame_of_event evs) fin "" (JArr []) =
       let text := chunks_text (folded evs) in
       let sources :=
         JArr (take 3 (default [] (last_sources (folded evs)))) in
       match first_terminal evs with
       | Some (ErrorEvent _) =>
           if (attempt =? 2)%nat then LoopReturn MSG_ERROR
           else LoopDone text sources
       | Some _ => LoopDone text sources
       | None =>
           match fin with
           | Closed => LoopDone text sources
           | Raises e => LoopRaise e
           end
       end) ∧
  (∀ attempt fin s1 s2 s3 s4,
     receive_loop attempt
       (map frame_of_event
          [ChunkEvent "a"; ChunkEvent "b"; SourcesEvent [s1; s2; s3; s4];
           EndEvent None])
       fin "" (JArr []) =
     LoopDone "ab" (JArr [s1; s2; s3])).
Proof.
  split; [exact receive_loop_events|].
  intros attempt fin s1 s2 s3 s4. by rewrite receive_loop_events.
Qed.

(** *** The history window *)

Lemma fold_left_snoc_map {A B} (f : A → B) (l : list A) (acc : list B) :
  fold_left (λ formatted x, formatted ++ [f x]) l acc = acc ++ map f l.
Proof.
  revert acc. induction l as [|x l IH]; intros acc; cbn.
  - by rewrite app_nil_r.
  - by rewrite IH, <- app_assoc.
Qed.

Lemma slice_from_last6 {A} (l : list A) :
  slice_from (-6) l = drop (length l - 6) l.
Proof.
  unfold slice_from. cbn. f_equal. lia.
Qed.

Lemma format_history_map h :
  format_history (Some h) =
    map (λ m, (format_role (role m), message m)) (drop (length h - 6) h).
Proof.
  destruct h as [|m h]; [done|].
  unfold format_history.
  by rewrite fold_left_snoc_map, slice_from_last6.
Qed.

(** C7: for a history of N turns the window has [min N 6] entries, they
    come from the most recent turns in their original order, the role
    "user" becomes "human" and every other role becomes "ai"; an empty or
    absent history gives an empty window. *)
Theorem history_window (h : list turn) :
  let out := format_history (Some h) in
  length out = Nat.min (length h) 6 ∧
  (∃ older recent,
     h = older ++ recent ∧
     length recent = Nat.min (length h) 6 ∧
     out = map (λ m, (format_role (role m), message m)) recent) ∧
  format_role "user" = "human" ∧
  (∀ r, r ≠ "user" → format_role r = "ai") ∧
  format_history (Some []) = [] ∧
  format_history None = [].
Proof.
  intros out. unfold out. rewrite format_history_map.
  split; [rewrite length_map, length_drop; lia|].
  split.
  { exists (take (length h - 6) h), (drop (length h - 6) h).
    split; [by rewrite take_drop|].
    split; [rewrite length_drop; lia|done]. }
  split; [done|]. split; [|done].
  intros r Hr. unfold format_role.
  destruct (String.eqb_spec r "user"); [done|done].
Qed.

(** Eight turns 0..7 with alternating roles: the window is turns 2..7. *)
Lemma history_window_witness :
  let h := map (λ n, {| role := if Nat.even n then "user" else "assistant";
                        message := str_int (Z.of_nat n) |}) (seq 0 8) in
  format_history (Some h) =
    [("human", "2"); ("ai", "3"); ("human", "4");
     ("ai", "5"); ("human", "6"); ("ai", "7")] ∧
  length (format_history (Some h)) = Nat.min (length h) 6 ∧
  format_role "assistant" = "ai".
Proof.
  intros h.
  destruct (history_window h) as (Hlen & _ & _ & Hother & _).
  split; [reflexivity|]. split; [exact Hlen|].
  apply Hother. discriminate.
Defined.

(** *** The sources trailer *)

Lemma add_sources_urls idx items urls text :
  Forall2 has_url items urls →
  add_sources idx items text = inr (text +:+ trailer_lines idx urls).
Proof.
  intros Hurls. revert idx text.
  induction Hurls as [|item url items urls Hurl _ IH]; intros idx text.
  - cbn. by rewrite app_str_nil_r.
  - cbn [add_sources trailer_lines]. rewrite Hurl.
    cbn [truthy str]. rewrite IH.
    destruct (String.eqb url ""); cbn [negb]; [done|].
    by rewrite app_str_assoc.
Qed.

Lemma finish_with_sources text items urls :
  text ≠ "" → items ≠ [] → Forall2 has_url items urls →
  finish text (JArr items) =
    inr (text +:+ SOURCES_HEADER +:+ trailer_lines 1 urls).
Proof.
  intros Htext Hitems Hurls. unfold finish.
  assert (Hne : String.eqb text "" = false)
    by (by apply String.eqb_neq).
  rewrite Hne. destruct items as [|item items]; [done|].
  cbn [truthy negb andb].
  rewrite (add_sources_urls 1 _ urls) by done.
  rewrite app_str_assoc, app_str_nonempty by done. done.
Qed.

(** C4 (amended): on success with non-empty text and a non-empty list of
    sources, the returned text is the body, a blank line, the marker
    "📚 Sources:" and one line "k. URL" for every source with a non-empty
    URL, k being the position of the source in the list counted from 1
    (sources without URL are skipped and keep their number); the scenario
    with one source "https://docs" and the chunks "Cairo " and
    "is a language." returns that text with the line "1. https://docs". *)
Theorem sources_trailer :
  (∀ text items urls,
     text ≠ "" → items ≠ [] → Forall2 has_url items urls →
     finish text (JArr items) =
       inr (text +:+ nl +:+ nl +:+ "📚 Sources:" +:+ trailer_lines 1 urls)) ∧
  (∀ history remote,
     remote 0%nat = served cairo_scenario →
     (get_response "What is Cairo?" "c1" history remote).1 =
       Returned ("Cairo is a language." +:+ nl +:+ nl +:+ "📚 Sources:"
                 +:+ nl +:+ "1. https://docs")).
Proof.
  split.
  - intros text items urls Htext Hitems Hurls.
    rewrite (finish_with_sources text items urls) by done.
    unfold SOURCES_HEADER. by rewrite !app_str_assoc.
  - intros history remote Hremote.
    unfold get_response. cbn [seq retry_loop]. rewrite Hremote.
    reflexivity.
Qed.

Lemma sources_trailer_witness :
  finish "Cairo"
    (JArr [source_with_url (Some "https://a"); source_with_url None;
           source_with_url (Some "https://c")]) =
    inr ("Cairo" +:+ nl +:+ nl +:+ "📚 Sources:"
         +:+ nl +:+ "1. https://a" +:+ nl +:+ "3. https://c") ∧
  (get_response "What is Cairo?" "c1" None (λ _, served cairo_scenario)).1 =
    Returned ("Cairo is a language." +:+ nl +:+ nl +:+ "📚 Sources:"
              +:+ nl +:+ "1. https://docs").
Proof.
  destruct sources_trailer as [Hfinish Hscenario]. split.
  - apply (Hfinish "Cairo" _ ["https://a"; ""; "https://c"]).
    + discriminate.
    + discriminate.
    + repeat constructor.
  - apply Hscenario. reflexivity.
Defined.

(** C4 as stated fails: the marker of the trailer is "📚 Sources:", not
    "Sources:", and a skipped source leaves a gap in the numbering. *)
Lemma sources_trailer_counterexample :
  (get_response "What is Cairo?" "c1" None (λ _, served cairo_scenario)).1 ≠
    Returned ("Cairo is a language." +:+ nl +:+ nl +:+ "Sources:"
              +:+ nl +:+ "1. https://docs") ∧
  finish "Cairo"
    (JArr [source_with_url None; source_with_url (Some "https://b")]) =
    inr ("Cairo" +:+ nl +:+ nl +:+ "📚 Sources:" +:+ nl +:+ "2. https://b").
Proof. split; [discriminate|reflexivity]. Qed.

(** *** The retry loop *)

Lemma retry_loop_cons attempt rest frame remote :
  retry_loop (attempt :: rest) frame remote =
    let run := attempt_body attempt frame (remote attempt) in
    match run.1 with
    | inr s => (Returned s, run.2)
    | inl e =>
        if (attempt =? 2)%nat then (Returned (handler_message e), run.2)
        else ((retry_loop rest frame remote).1,
              run.2 ++ EvSleep 1 :: (retry_loop rest frame remote).2)
    end.
Proof.
  cbn [retry_loop]. destruct (attempt_body attempt frame (remote attempt))
    as [[e|s] tr]; cbn [fst snd]; [|done].
  destruct (attempt =? 2)%nat; [done|].
  by destruct (retry_loop rest frame remote).
Qed.

Lemma schedule_app tr1 tr2 :
  schedule (tr1 ++ tr2) = schedule tr1 ++ schedule tr2.
Proof.
  induction tr1 as [|ev tr1 IH]; [done|].
  destruct ev; cbn; by rewrite IH.
Qed.

Lemma schedule_attempt attempt frame env :
  schedule (attempt_body attempt frame env).2 = [EvConnect attempt].
Proof. unfold attempt_body. by destruct (connect_raises env). Qed.

Lemma schedule_retry attempt rest frame remote :
  schedule (retry_loop (attempt :: rest) frame remote).2 =
    match (attempt_body attempt frame (remote attempt)).1 with
    | inr _ => [EvConnect attempt]
    | inl _ =>
        if (attempt =? 2)%nat then [EvConnect attempt]
        else EvConnect attempt :: EvSleep 1
               :: schedule (retry_loop rest frame remote).2
    end.
Proof.
  rewrite retry_loop_cons. cbn zeta.
  destruct (attempt_body attempt frame (remote attempt)).1 as [e|s] eqn:E;
    [|apply schedule_attempt].
  destruct (attempt =? 2)%nat; cbn [snd]; [apply schedule_attempt|].
  by rewrite schedule_app, schedule_attempt.
Qed.

Lemma get_response_returns msg chat_id history remote :
  ∃ s, (get_response msg chat_id history remote).1 = Returned s.
Proof.
  unfold get_response. cbn [seq].
  repeat (rewrite retry_loop_cons; cbn zeta;
          match goal with
          | |- context [(attempt_body ?k ?f ?env).1] =>
              destruct (attempt_body k f env).1 as [?|?];
              cbn [Nat.eqb fst]; [|by eexists]
          end).
  by eexists.
Qed.

Lemma get_response_schedule msg chat_id history remote :
  ∃ n, (1 ≤ n ≤ 3)%nat ∧
       schedule (get_response msg chat_id history remote).2 = paced_from 0 n.
Proof.
  unfold get_response. cbn [seq]. rewrite schedule_retry.
  destruct (attempt_body 0 _ _).1; [|by exists 1%nat; split; [lia|]].
  cbn [Nat.eqb]. rewrite schedule_retry.
  destruct (attempt_body 1 _ _).1; [|by exists 2%nat; split; [lia|]].
  cbn [Nat.eqb]. rewrite schedule_retry.
  exists 3%nat. split; [lia|].
  by destruct (attempt_body 2 _ _).1.
Qed.

Lemma get_response_exhausted msg chat_id history remote :
  let frame := query_frame msg chat_id (format_history history) in
  (∀ k, (k < 3)%nat → ∃ e, (attempt_body k frame (remote k)).1 = inl e) →
  ∃ e, (attempt_body 2 frame (remote 2%nat)).1 = inl e ∧
       (get_response msg chat_id history remote).1
         = Returned (handler_message e) ∧
       schedule (get_response msg chat_id history remote).2
         = paced_from 0 3.
Proof.
  intros frame Hfail.
  destruct (Hfail 0%nat) as [e0 H0]; [lia|].
  destruct (Hfail 1%nat) as [e1 H1]; [lia|].
  destruct (Hfail 2%nat) as [e2 H2]; [lia|].
  exists e2. split; [done|].
  unfold get_response. fold frame. cbn [seq].
  rewrite !schedule_retry, !retry_loop_cons. cbn zeta.
  by rewrite H0, H1, H2.
Qed.

(** C5: a call makes between one and three attempts, with a pause of one
    second between consecutive attempts and nowhere else; when each of the
    three attempts ends in a timeout the call returns "Response timeout.
    Please try with a shorter question.", when each ends in another
    failure it returns the "trouble connecting" message, and the two
    messages differ. *)
Theorem retry_budget_and_fallbacks :
  (∀ msg chat_id history remote,
     ∃ n, (1 ≤ n ≤ 3)%nat ∧
          schedule (get_response msg chat_id history remote).2
            = paced_from 0 n) ∧
  (∀ msg chat_id history remote,
     (∀ k, (k < 3)%nat →
           (attempt_body k (query_frame msg chat_id (format_history history))
                         (remote k)).1 = inl TimeoutError) →
     (get_response msg chat_id history remote).1 =
       Returned "Response timeout. Please try with a shorter question." ∧
     schedule (get_response msg chat_id history remote).2 =
       [EvConnect 0; EvSleep 1; EvConnect 1; EvSleep 1; EvConnect 2]) ∧
  (∀ msg chat_id history remote,
     (∀ k, (k < 3)%nat →
           ∃ e, e ≠ TimeoutError ∧
                (attempt_body k
                   (query_frame msg chat_id (format_history history))
                   (remote k)).1 = inl e) →
     (get_response msg chat_id history remote).1 =
       Returned "I'm having trouble connecting to the knowledge base. Please try again." ∧
     schedule (get_response msg chat_id history remote).2 =
       [EvConnect 0; EvSleep 1; EvConnect 1; EvSleep 1; EvConnect 2]) ∧
  MSG_TIMEOUT ≠ MSG_CONNECT.
Proof.
  split; [exact get_response_schedule|].
  split; [|split; [|discriminate]].
  - intros msg chat_id history remote Hto.
    destruct (get_response_exhausted msg chat_id history remote)
      as (e & He & Hres & Hsched).
    { intros k Hk. exists TimeoutError. by apply Hto. }
    rewrite Hto in He by lia. injection He as <-. by rewrite Hres, Hsched.
  - intros msg chat_id history remote Hfail.
    destruct (get_response_exhausted msg chat_id history remote)
      as (e & He & Hres & Hsched).
    { intros k Hk. destruct (Hfail k Hk) as (e & _ & He). by exists e. }
    destruct (Hfail 2%nat) as (e' & Hne & He'); [lia|].
    rewrite He' in He. injection He as <-.
    rewrite Hres, Hsched. by destruct e'.
Qed.

(** Three attempts that time out while connecting, and three whose
    connection is refused. *)
Lemma retry_budget_and_fallbacks_witness :
  (get_response "q" "c1" None (λ _, refused TimeoutError)).1 =
    Returned "Response timeout. Please try with a shorter question." ∧
  schedule (get_response "q" "c1" None (λ _, refused TimeoutError)).2 =
    [EvConnect 0; EvSleep 1; EvConnect 1; EvSleep 1; EvConnect 2] ∧
  (get_response "q" "c1" None (λ _, refused ClientError)).1 =
    Returned "I'm having trouble connecting to the knowledge base. Please try again.".
Proof.
  destruct retry_budget_and_fallbacks as (_ & Hto & Hconn & _).
  destruct (Hto "q" "c1" None (λ _, refused TimeoutError)) as [Hres Hsched].
  { intros k _. reflexivity. }
  destruct (Hconn "q" "c1" None (λ _, refused ClientError)) as [Hres' _].
  { intros k _. exists ClientError. split; [discriminate|reflexivity]. }
  split; [exact Hres|]. split; [exact Hsched|exact Hres'].
Defined.

(** *** Empty answers *)

Lemma finish_empty sources : finish "" sources = inr MSG_EMPTY.
Proof. unfold finish. by rewrite andb_false_r. Qed.

(** C8: when the loop over the channel of an attempt ends without raising
    and with no text accumulated, as it does on a [messageEnd] frame that
    no chunk preceded, the call returns "I couldn't generate a response.
    Please try again." from that attempt, whichever of the three it is,
    and makes no further attempt. *)
Theorem empty_answer_not_retried msg chat_id history remote k sources :
  let frame := query_frame msg chat_id (format_history history) in
  (k < 3)%nat →
  (∀ j, (j < k)%nat → ∃ e, (attempt_body j frame (remote j)).1 = inl e) →
  connect_raises (remote k) = None →
  send_raises (remote k) = None →
  receive_loop k (incoming (remote k)) (ending (remote k)) "" (JArr [])
    = LoopDone "" sources →
  (attempt_body k frame (remote k)).1
    = inr "I couldn't generate a response. Please try again." ∧
  (get_response msg chat_id history remote).1
    = Returned "I couldn't generate a response. Please try again." ∧
  schedule (get_response msg chat_id history remote).2 = paced_from 0 (S k).
Proof.
  intros frame Hk Hprev Hconn Hsend Hloop.
  assert (Hbody : (attempt_body k frame (remote k)).1 = inr MSG_EMPTY).
  { unfold attempt_body. rewrite Hconn, Hsend. cbn [fst].
    rewrite Hloop. apply finish_empty. }
  split; [exact Hbody|].
  unfold get_response. fold frame. cbn [seq].
  destruct k as [|[|[|k]]]; [| | |lia].
  - rewrite schedule_retry, retry_loop_cons. cbn zeta. by rewrite Hbody.
  - destruct (Hprev 0%nat) as [e0 H0]; [lia|].
    rewrite !schedule_retry, !retry_loop_cons. cbn zeta.
    by rewrite H0, Hbody.
  - destruct (Hprev 0%nat) as [e0 H0]; [lia|].
    destruct (Hprev 1%nat) as [e1 H1]; [lia|].
    rewrite !schedule_retry, !retry_loop_cons. cbn zeta.
    by rewrite H0, H1, Hbody.
Qed.

(** A first attempt that times out, then a second one whose stream is a
    list of sources followed by the end of the message. *)
Lemma empty_answer_not_retried_witness :
  let remote := λ k : nat,
    match k with
    | O => refused TimeoutError
    | _ => served (map frame_of_event
                     [SourcesEvent [source_with_url (Some "https://docs")];
                      EndEvent (Some "m1")])
    end in
  (get_response "q" "c1" None remote).1 =
    Returned "I couldn't generate a response. Please try again." ∧
  schedule (get_response "q" "c1" None remote).2 =
    [EvConnect 0; EvSleep 1; EvConnect 1].
Proof.
  intros remote.
  destruct (empty_answer_not_retried "q" "c1" None remote 1
              (JArr [source_with_url (Some "https://docs")]))
    as (_ & Hres & Hsched).
  - lia.
  - intros j Hj. exists TimeoutError.
    assert (j = 0%nat) as -> by lia. reflexivity.
  - reflexivity.
  - reflexivity.
  - reflexivity.
  - split; [exact Hres|exact Hsched].
Defined.

(** *** Error frames and closed channels *)

(** C1 fails on the code: an error frame on the first attempt is not
    followed by a second attempt.  The loop over the channel is left, and
    the attempt returns what it has: the no-content message, or the text
    received before the error frame. *)
Theorem error_frame_first_attempt_returns :
  get_response "q" "c1" None
    (λ _, served [frame_of_event (ErrorEvent "overloaded")]) =
    (Returned "I couldn't generate a response. Please try again.",
     [EvConnect 0; EvSend (query_frame "q" "c1" [])]) ∧
  get_response "q" "c1" None
    (λ _, served [frame_of_event (ChunkEvent "Cairo ");
                  frame_of_event (ErrorEvent "overloaded")]) =
    (Returned "Cairo ", [EvConnect 0; EvSend (query_frame "q" "c1" [])]).
Proof. split; reflexivity. Qed.

Lemma receive_loop_closed attempt msgs fin mid text sources :
  receive_loop attempt msgs Closed text sources =
  receive_loop attempt (msgs ++ [frame_of_event (EndEvent mid)]) fin
               text sources.
Proof.
  revert text sources. induction msgs as [|m msgs IH]; intros text sources.
  - by destruct mid.
  - cbn [app receive_loop].
    by destruct (on_message attempt m text sources).
Qed.

Lemma retry_returns_at msg chat_id history remote k answer :
  let frame := query_frame msg chat_id (format_history history) in
  (k < 3)%nat →
  (∀ j, (j < k)%nat → ∃ e, (attempt_body j frame (remote j)).1 = inl e) →
  (attempt_body k frame (remote k)).1 = inr answer →
  (get_response msg chat_id history remote).1 = Returned answer ∧
  schedule (get_response msg chat_id history remote).2 = paced_from 0 (S k).
Proof.
  intros frame Hk Hprev Hbody.
  unfold get_response. fold frame. cbn [seq].
  destruct k as [|[|[|k]]]; [| | |lia].
  - rewrite schedule_retry, retry_loop_cons. cbn zeta. by rewrite Hbody.
  - destruct (Hprev 0%nat) as [e0 H0]; [lia|].
    rewrite !schedule_retry, !retry_loop_cons. cbn zeta.
    by rewrite H0, Hbody.
  - destruct (Hprev 0%nat) as [e0 H0]; [lia|].
    destruct (Hprev 1%nat) as [e1 H1]; [lia|].
    rewrite !schedule_retry, !retry_loop_cons. cbn zeta.
    by rewrite H0, H1, Hbody.
Qed.

Lemma attempt_body_closed attempt frame evs :
  first_terminal evs = None →
  (attempt_body attempt frame (served (map frame_of_event evs))).1 =
    finish (chunks_text evs) (JArr (take 3 (default [] (last_sources evs)))).
Proof.
  intros Hnt. unfold attempt_body, served.
  cbn [connect_raises send_raises incoming ending fst].
  pose proof (receive_loop_events attempt evs Closed) as Hfold.
  cbn zeta in Hfold. rewrite Hnt in Hfold.
  pose proof (split_at_terminal evs) as [_ Hsplit].
  rewrite Hnt in Hsplit. rewrite Hsplit in Hfold.
  by rewrite Hfold.
Qed.

(** C2 (amended): an attempt whose channel closes before any terminal
    event is handled exactly as if an [EndEvent] had arrived at that
    point, not as a protocol error: lines 122-132 aggregate what was
    received so far.  When that aggregation does not raise, as is always
    the case when no sources arrived, its result (the text with its
    trailer, or the no-content message when there is no text) is returned
    from that attempt, whichever attempt it is, and no further attempt is
    made; when building the trailer raises, the attempt fails with that
    exception like any other failed attempt, as it would after an
    [EndEvent]. *)
Theorem closed_channel_ends_fold :
  (∀ attempt frame conn send msgs fin mid,
     attempt_body attempt frame
       {| connect_raises := conn; send_raises := send;
          incoming := msgs; ending := Closed |} =
     attempt_body attempt frame
       {| connect_raises := conn; send_raises := send;
          incoming := msgs ++ [frame_of_event (EndEvent mid)];
          ending := fin |}) ∧
  (∀ msg chat_id history remote k evs,
     let frame := query_frame msg chat_id (format_history history) in
     (k < 3)%nat →
     (∀ j, (j < k)%nat → ∃ e, (attempt_body j frame (remote j)).1 = inl e) →
     first_terminal evs = None →
     remote k = served (map frame_of_event evs) →
     match finish (chunks_text evs)
                  (JArr (take 3 (default [] (last_sources evs)))) with
     | inr answer =>
         (get_response msg chat_id history remote).1 = Returned answer ∧
         schedule (get_response msg chat_id history remote).2
           = paced_from 0 (S k)
     | inl e => (attempt_body k frame (remote k)).1 = inl e
     end) ∧
  (∀ evs,
     last_sources evs = None →
     finish (chunks_text evs) (JArr (take 3 (default [] (last_sources evs))))
       = inr (if String.eqb (chunks_text evs) "" then MSG_EMPTY
              else chunks_text evs)).
Proof.
  split; [|split].
  - intros attempt frame conn send msgs fin mid. unfold attempt_body.
    cbn [connect_raises send_raises incoming ending].
    by rewrite (receive_loop_closed attempt msgs fin mid).
  - intros msg chat_id history remote k evs frame Hk Hprev Hnt Hremote.
    pose proof (attempt_body_closed k frame evs Hnt) as Hbody.
    rewrite <- Hremote in Hbody.
    destruct (finish (chunks_text evs)
                (JArr (take 3 (default [] (last_sources evs)))))
      as [e|answer]; [exact Hbody|].
    by apply retry_returns_at.
  - intros evs ->. reflexivity.
Qed.

(** A refused connection, then a channel that closes after two chunks; and
    a channel that closes after a source that is not an object and a
    chunk. *)
Lemma closed_channel_ends_fold_witness :
  let remote := λ k : nat,
    match k with
    | O => refused ClientError
    | _ => served (map frame_of_event [ChunkEvent "Cairo "; ChunkEvent "is"])
    end in
  let broken := served (map frame_of_event
                          [SourcesEvent [JStr "x"]; ChunkEvent "T"]) in
  ((get_response "q" "c1" None remote).1 = Returned "Cairo is" ∧
   schedule (get_response "q" "c1" None remote).2 =
     [EvConnect 0; EvSleep 1; EvConnect 1]) ∧
  (attempt_body 0 (query_frame "q" "c1" (format_history None)) broken).1 =
    inl AttributeError.
Proof.
  intros remote broken. split.
  - apply (proj1 (proj2 closed_channel_ends_fold) "q" "c1" None remote 1%nat
             [ChunkEvent "Cairo "; ChunkEvent "is"]).
    + lia.
    + intros j Hj. exists ClientError.
      assert (j = 0%nat) as -> by lia. reflexivity.
    + reflexivity.
    + reflexivity.
  - apply (proj1 (proj2 closed_channel_ends_fold) "q" "c1" None (λ _, broken)
             0%nat [SourcesEvent [JStr "x"]; ChunkEvent "T"]).
    + lia.
    + intros j Hj. lia.
    + reflexivity.
    + reflexivity.
Defined.

(** C2 as stated fails: an attempt whose channel closes after one chunk
    and before any terminal event does not raise, and the call returns
    that chunk from the first attempt. *)
Lemma closed_channel_counterexample :
  let cut := served [frame_of_event (ChunkEvent "Cairo ")] in
  first_terminal [ChunkEvent "Cairo "] = None ∧
  ¬ (∃ e, (attempt_body 0 (query_frame "q" "c1" []) cut).1 = inl e) ∧
  get_response "q" "c1" None (λ _, cut) =
    (Returned "Cairo ", [EvConnect 0; EvSend (query_frame "q" "c1" [])]).
Proof.
  split; [reflexivity|]. split; [|reflexivity].
  intros [e He]. discriminate He.
Qed.

End AiClientProofs.

(** ** StarknetAI.get_response: further properties *)

Module AiClientFacts.
Import Py AiClient Events Observations AiClientProofs.

Lemma receive_loop_return attempt msgs fin text sources s :
  receive_loop attempt msgs fin text sources = LoopReturn s → s = MSG_ERROR.
Proof.
  revert text sources. induction msgs as [|m msgs IH]; intros text sources.
  - cbn. by destruct fin.
  - cbn [receive_loop].
    destruct (on_message attempt m text sources) as [t' s'|t' s'|r|e] eqn:Hm;
      [apply IH|done| |done].
    intros [= <-]. unfold on_message in Hm.
    repeat match type of Hm with
           | match ?x with _ => _ end = _ => destruct x; try done
           | (if ?b then _ else _) = _ => destruct b; try done
           end.
    by injection Hm.
Qed.

Lemma finish_nonempty text sources answer :
  finish text sources = inr answer → answer ≠ "".
Proof.
  unfold finish.
  destruct (if truthy sources && negb (String.eqb text "")
            then match sources with
                 | JArr items =>
                     add_sources 1 items (text +:+ SOURCES_HEADER)
                 | _ => inl AttributeError
                 end
            else inr text) as [e|text']; [done|].
  intros [= <-]. destruct (String.eqb_spec text' ""); [done|done].
Qed.

Lemma attempt_body_nonempty attempt frame env answer :
  (attempt_body attempt frame env).1 = inr answer → answer ≠ "".
Proof.
  unfold attempt_body.
  destruct (connect_raises env); [done|]. cbn [fst].
  destruct (send_raises env); [done|].
  destruct (receive_loop attempt (incoming env) (ending env) "" (JArr []))
    as [text sources|s|e] eqn:Hloop; [apply finish_nonempty| |done].
  intros [= <-]. by rewrite (receive_loop_return _ _ _ _ _ _ Hloop).
Qed.

Lemma retry_answer_nonempty msg chat_id history remote :
  ∃ answer, (get_response msg chat_id history remote).1 = Returned answer ∧
            answer ≠ "".
Proof.
  unfold get_response. cbn [seq].
  repeat (rewrite retry_loop_cons; cbn zeta;
          match goal with
          | |- context [(attempt_body ?k ?f ?env).1] =>
              destruct (attempt_body k f env).1 as [?|?] eqn:?;
              cbn [Nat.eqb fst];
              [|eexists; split; [done|by eapply attempt_body_nonempty]]
          end).
  eexists. split; [done|].
  match goal with |- handler_message ?x ≠ _ => by destruct x end.
Qed.

(** The answer of a call is never the empty string, whatever the remote
    service does. *)
Theorem get_response_nonempty msg chat_id history remote :
  ∃ answer, (get_response msg chat_id history remote).1 = Returned answer ∧
            answer ≠ "".
Proof. apply retry_answer_nonempty. Qed.

(** *** Messages the loop passes over *)

Lemma on_message_ignorable attempt msg text sources :
  ignorable msg = true → on_message attempt msg text sources = Continue text sources.
Proof.
  destruct msg as [[data|]|]; [|done..].
  destruct data as [| | | | |fields]; try done.
  cbn [ignorable on_message]. destruct (dict_get fields "type") as [ty|]; [|done].
  destruct (eq_str ty "sources"); [done|].
  destruct (eq_str ty "message"); [done|].
  destruct (eq_str ty "messageEnd"); [done|].
  by destruct (eq_str ty "error").
Qed.

(** Messages that are not text and frames of an unknown type leave no trace:
    an attempt gives the same result with and without them. *)
Theorem ignorable_messages_leave_no_trace attempt frame conn send msgs fin :
  attempt_body attempt frame
    {| connect_raises := conn; send_raises := send;
       incoming := List.filter (λ m, negb (ignorable m)) msgs;
       ending := fin |} =
  attempt_body attempt frame
    {| connect_raises := conn; send_raises := send;
       incoming := msgs; ending := fin |}.
Proof.
  unfold attempt_body. cbn [connect_raises send_raises incoming ending].
  assert (Hloop : ∀ text sources,
            receive_loop attempt (List.filter (λ m, negb (ignorable m)) msgs)
                         fin text sources =
            receive_loop attempt msgs fin text sources).
  { induction msgs as [|m msgs IH]; intros text sources; [done|].
    cbn [List.filter receive_loop].
    destruct (ignorable m) eqn:Hm; cbn [negb].
    - rewrite (on_message_ignorable _ _ _ _ Hm). apply IH.
    - cbn [receive_loop].
      destruct (on_message attempt m text sources); [apply IH|done..]. }
  by rewrite Hloop.
Qed.

(** *** The sources kept by the loop *)

Lemma py_len_str_take n s : (py_len (str_take n s) ≤ n)%nat.
Proof.
  revert n. induction s as [|c s IH]; intros n; cbn; [lia|].
  destruct (is_continuation c) eqn:Hc; cbn; rewrite ?Hc; [apply IH|].
  destruct n as [|n]; cbn; rewrite ?Hc; [lia|].
  specialize (IH n). lia.
Qed.

Lemma slice3_bounded v sources : slice3 v = inr sources → sources_bounded sources.
Proof.
  destruct v; cbn; try done; intros [= <-]; cbn.
  - apply py_len_str_take.
  - rewrite length_take. lia.
Qed.

Lemma on_message_bounded attempt msg text sources :
  sources_bounded sources →
  match on_message attempt msg text sources with
  | Continue _ sources' | Break _ sources' => sources_bounded sources'
  | _ => True
  end.
Proof.
  intros Hb. destruct msg as [[data|]|]; [|done..].
  destruct data as [| | | | |fields]; try done.
  cbn [on_message]. destruct (dict_get fields "type") as [ty|]; [|done].
  destruct (eq_str ty "sources").
  { destruct (slice3 _) as [e|sources'] eqn:Hs; [done|].
    by eapply slice3_bounded. }
  destruct (eq_str ty "message").
  { by destruct (dict_get_default fields "data" (JStr "")). }
  destruct (eq_str ty "messageEnd"); [done|].
  destruct (eq_str ty "error"); [|done].
  by destruct (attempt =? 2)%nat.
Qed.

(** Whatever frames arrive, the loop ends with at most three sources (or,
    after a [sources] frame carrying a string, at most three characters). *)
Theorem at_most_three_sources attempt msgs fin text sources :
  receive_loop attempt msgs fin "" (JArr []) = LoopDone text sources →
  sources_bounded sources.
Proof.
  assert (Hgen : ∀ text0 sources0,
            sources_bounded sources0 →
            receive_loop attempt msgs fin text0 sources0 = LoopDone text sources →
            sources_bounded sources).
  { induction msgs as [|m msgs IH]; intros text0 sources0 Hb.
    - cbn. destruct fin; [|done]. by intros [= _ <-].
    - cbn [receive_loop].
      pose proof (on_message_bounded attempt m text0 sources0 Hb) as Hm.
      destruct (on_message attempt m text0 sources0) as [t' s'|t' s'|r|e];
        [by apply IH| |done|done].
      by intros [= _ <-]. }
  apply Hgen. cbn. lia.
Qed.

(** Five sources arrive; three are kept. *)
Lemma at_most_three_sources_witness :
  let s := λ n : Z, JObj [("metadata", JObj [("url", JStr (str_int n))])] in
  sources_bounded (JArr [s 1; s 2; s 3])%Z.
Proof.
  intros s.
  apply (at_most_three_sources 0
           [frame_of_event (SourcesEvent [s 1; s 2; s 3; s 4; s 5]%Z);
            frame_of_event (ChunkEvent "text")] Closed "text").
  reflexivity.
Defined.

(** *** Outcomes of the retry loop *)

Lemma retry_first_success msg chat_id history remote k answer :
  let frame := query_frame msg chat_id (format_history history) in
  (k < 3)%nat →
  (∀ j, (j < k)%nat → ∃ e, (attempt_body j frame (remote j)).1 = inl e) →
  (attempt_body k frame (remote k)).1 = inr answer →
  (get_response msg chat_id history remote).1 = Returned answer ∧
  schedule (get_response msg chat_id history remote).2 = paced_from 0 (S k).
Proof. apply retry_returns_at. Qed.

(** The first attempt that does not raise decides the call: its answer is
    returned as it is, and no attempt follows it. *)
Theorem first_success_decides msg chat_id history remote k answer :
  let frame := query_frame msg chat_id (format_history history) in
  (k < 3)%nat →
  (∀ j, (j < k)%nat → ∃ e, (attempt_body j frame (remote j)).1 = inl e) →
  (attempt_body k frame (remote k)).1 = inr answer →
  (get_response msg chat_id history remote).1 = Returned answer ∧
  schedule (get_response msg chat_id history remote).2 = paced_from 0 (S k).
Proof. apply retry_first_success. Qed.

(** A refused connection, a timeout, then an answer on the third attempt. *)
Lemma first_success_decides_witness :
  let remote := λ k : nat,
    match k with
    | 0%nat => refused ClientError
    | 1%nat => refused TimeoutError
    | _ => served cairo_scenario
    end in
  (get_response "What is Cairo?" "c1" None remote).1 =
    Returned ("Cairo is a language." +:+ SOURCES_HEADER
              +:+ nl +:+ "1. https://docs") ∧
  schedule (get_response "What is Cairo?" "c1" None remote).2 =
    [EvConnect 0; EvSleep 1; EvConnect 1; EvSleep 1; EvConnect 2].
Proof.
  intros remote.
  apply (first_success_decides "What is Cairo?" "c1" None remote 2).
  - lia.
  - intros j Hj. destruct j as [|[|j]]; [by eexists..|lia].
  - reflexivity.
Defined.

(** When all three attempts raise, the message returned is chosen by the
    failure of the third attempt alone: the timeout message for a timeout,
    the connection message for anything else, whatever the first two
    failures were. *)
Theorem last_failure_decides msg chat_id history remote e :
  let frame := query_frame msg chat_id (format_history history) in
  (∀ j, (j < 2)%nat → ∃ e', (attempt_body j frame (remote j)).1 = inl e') →
  (attempt_body 2 frame (remote 2%nat)).1 = inl e →
  (get_response msg chat_id history remote).1 =
    Returned (if decide (e = TimeoutError) then MSG_TIMEOUT else MSG_CONNECT).
Proof.
  intros frame Hprev Hlast.
  destruct (get_response_exhausted msg chat_id history remote)
    as (e' & He' & Hres & _).
  { intros k Hk. destruct (decide (k = 2)) as [->|Hne]; [by exists e|].
    apply Hprev. lia. }
  fold frame in He'. rewrite Hlast in He'. injection He' as <-.
  rewrite Hres. by destruct e.
Qed.

(** Two timeouts, then a frame that is not JSON on the third attempt: the
    connection message, not the timeout message. *)
Lemma last_failure_decides_witness :
  let remote := λ k : nat,
    match k with
    | 2%nat => served [WSText None]
    | _ => refused TimeoutError
    end in
  (get_response "q" "c1" None remote).1 = Returned MSG_CONNECT.
Proof.
  intros remote.
  apply (last_failure_decides "q" "c1" None remote JSONDecodeError).
  - intros j Hj. destruct j as [|[|j]]; [by eexists..|lia].
  - reflexivity.
Defined.

(** An error frame met on the third attempt ends the call with the error
    message, whatever text that attempt had received before it. *)
Theorem error_frame_last_attempt msg chat_id history remote evs detail rest :
  let frame := query_frame msg chat_id (format_history history) in
  (∀ j, (j < 2)%nat → ∃ e, (attempt_body j frame (remote j)).1 = inl e) →
  connect_raises (remote 2%nat) = None →
  send_raises (remote 2%nat) = None →
  first_terminal evs = None →
  incoming (remote 2%nat) =
    map frame_of_event evs ++ frame_of_event (ErrorEvent detail) :: rest →
  (get_response msg chat_id history remote).1 =
    Returned "Sorry, I encountered an error. Please try again.".
Proof.
  intros frame Hprev Hconn Hsend Hnt Hin.
  apply (retry_first_success msg chat_id history remote 2); [lia|done|].
  unfold attempt_body. rewrite Hconn, Hsend, Hin. cbn [fst].
  by rewrite receive_events.
Qed.

(** Two refused connections, then a chunk followed by an error frame. *)
Lemma error_frame_last_attempt_witness :
  let remote := λ k : nat,
    match k with
    | 2%nat => served (map frame_of_event
                         [ChunkEvent "Cairo "; ErrorEvent "overloaded"])
    | _ => refused ClientError
    end in
  (get_response "q" "c1" None remote).1 =
    Returned "Sorry, I encountered an error. Please try again.".
Proof.
  intros remote.
  apply (error_frame_last_attempt "q" "c1" None remote
           [ChunkEvent "Cairo "] "overloaded" []).
  - intros j Hj. destruct j as [|[|j]]; [by eexists..|lia].
  - reflexivity.
  - reflexivity.
  - reflexivity.
  - reflexivity.
Defined.

End AiClientFacts.

(** ** RateLimiter: further properties *)

Module RateLimiterFacts.
Import RateLimiter Observations RateLimiterProofs.
Local Open Scope Z_scope.

Lemma is_allowed_agree now c r1 r2 :
  r1 !! c = r2 !! c →
  (is_allowed now c r1).1 = (is_allowed now c r2).1 ∧
  (is_allowed now c r1).2 !! c = (is_allowed now c r2).2 !! c.
Proof.
  intros Heq. rewrite !is_allowed_lookup.
  assert (Hv : (is_allowed now c r1).1 = (is_allowed now c r2).1).
  { unfold is_allowed. rewrite Heq. by case_decide. }
  split; [done|]. unfold window_of. by rewrite Heq, Hv.
Qed.

Lemma verdicts_for_own_calls c calls r1 r2 :
  r1 !! c = r2 !! c →
  verdicts_for c calls (run_calls calls r1).1 =
    (run_calls (calls_of c calls) r2).1.
Proof.
  revert r1 r2. induction calls as [|[c0 now] calls IH]; intros r1 r2 Heq.
  - done.
  - rewrite run_calls_cons. cbn [fst verdicts_for calls_of List.filter].
    fold (calls_of c calls).
    destruct (String.eqb_spec c0 c) as [->|Hne].
    + rewrite run_calls_cons. cbn [fst app].
      destruct (is_allowed_agree now c r1 r2 Heq) as [Hv Hs].
      rewrite Hv. f_equal. by apply IH.
    + cbn [app]. apply IH. by rewrite is_allowed_other.
Qed.

(** Conversations do not interfere: the verdicts a conversation gets in any
    interleaving of calls are those it would get if its own calls were the
    only ones made. *)
Theorem conversations_isolated c calls requests :
  verdicts_for c calls (run_calls calls requests).1 =
    (run_calls (calls_of c calls) requests).1.
Proof. by apply verdicts_for_own_calls. Qed.

(** A conversation whose recorded timestamps have all left the window is
    admitted again, and its window restarts with the current call alone. *)
Theorem expired_window_admits now c requests :
  Forall (λ t, ¬ in_window now t) (window_of requests c) →
  (is_allowed now c requests).1 = true ∧
  window_of (is_allowed now c requests).2 c = [now].
Proof.
  intros Hold.
  assert (Hnil : filter (in_window now) (window_of requests c) = []).
  { induction Hold as [|t ts Ht _ IH]; [done|].
    by rewrite filter_cons_False. }
  assert (Hv : (is_allowed now c requests).1 = true).
  { destruct (is_allowed now c requests).1 eqn:E; [done|].
    apply is_allowed_verdict in E. unfold count_in_window in E.
    rewrite Hnil in E. cbn in E. unfold Config.RATE_LIMIT_PER_CHAT in E. lia. }
  split; [done|]. by rewrite window_of_is_allowed, Hnil, Hv.
Qed.

(** Twenty calls in the first twenty seconds: a call just before the hour
    is over is denied, a call an hour after the last of them is admitted. *)
Lemma expired_window_admits_witness :
  let second := timedelta_seconds 1 in
  let requests :=
    (run_calls (map (λ n, ("c1", Z.of_nat n * second)) (seq 0 20)) init).2 in
  let now := 3619 * second in
  (is_allowed (3599 * second) "c1" requests).1 = false ∧
  (is_allowed now "c1" requests).1 = true ∧
  window_of (is_allowed now "c1" requests).2 "c1" = [now].
Proof.
  intros second requests now.
  split; [compute_done|].
  apply (expired_window_admits now "c1" requests).
  compute_done.
Defined.

(** *** The sliding-window guarantee *)

Lemma run_calls_app_verdicts calls1 calls2 requests :
  (run_calls (calls1 ++ calls2) requests).1 =
    (run_calls calls1 requests).1
    ++ (run_calls calls2 (run_calls calls1 requests).2).1.
Proof.
  revert requests. induction calls1 as [|[c now] calls1 IH]; intros requests.
  - done.
  - rewrite <- app_comm_cons, !run_calls_cons. cbn [fst snd app].
    by rewrite IH.
Qed.

Lemma run_calls_length calls requests :
  length (run_calls calls requests).1 = length calls.
Proof.
  revert requests. induction calls as [|[c now] calls IH]; intros requests.
  - done.
  - rewrite run_calls_cons. cbn. by rewrite IH.
Qed.

Lemma accepted_app c calls1 calls2 verdicts1 verdicts2 :
  length calls1 = length verdicts1 →
  accepted c (calls1 ++ calls2) (verdicts1 ++ verdicts2) =
    accepted c calls1 verdicts1 ++ accepted c calls2 verdicts2.
Proof.
  revert verdicts1.
  induction calls1 as [|[c0 now] calls1 IH]; intros [|v verdicts1] Hlen;
    try done.
  cbn. rewrite IH by (cbn in Hlen; lia). by rewrite app_assoc.
Qed.

Lemma clock_monotone_prefix calls call :
  clock_monotone (calls ++ [call]) → clock_monotone calls.
Proof.
  induction calls as [|[c t] calls IH]; [done|].
  cbn. intros [Hhd Htl]. split; [|by apply IH].
  rewrite Forall_app in Hhd. by destruct Hhd.
Qed.

Lemma filter_window_later t0 now (ts : list datetime) :
  t0 ≤ now →
  filter (in_window now) (filter (in_window t0) ts) = filter (in_window now) ts.
Proof.
  intros Hle. induction ts as [|t ts IH]; [done|].
  rewrite !(filter_cons _ t).
  destruct (decide (in_window t0 t)) as [Hin0|Hnin0].
  - rewrite filter_cons. by rewrite IH.
  - rewrite IH. destruct (decide (in_window now t)) as [Hin|]; [|done].
    exfalso. apply Hnin0. unfold in_window in *. lia.
Qed.

(** With a clock that never goes backwards, the timestamps of a stored
    window that are still inside the trailing window are the accepted calls
    of the conversation that are inside it. *)
Lemma stored_window_is_accepted calls :
  clock_monotone calls →
  ∀ now c, (∀ c' t, (c', t) ∈ calls → t ≤ now) →
    filter (in_window now) (window_of (run_calls calls init).2 c) =
    filter (in_window now) (accepted c calls (run_calls calls init).1).
Proof.
  induction calls as [|[c0 t0] calls IH] using rev_ind; intros Hmono now c Hpast.
  - done.
  - pose proof (clock_monotone_prefix _ _ Hmono) as Hmono'.
    pose proof (clock_monotone_last _ _ _ Hmono) as Hbefore.
    assert (Ht0 : t0 ≤ now).
    { apply (Hpast c0). apply elem_of_app. right. by apply list_elem_of_singleton. }
    assert (Hpast' : ∀ c' t, (c', t) ∈ calls → t ≤ now).
    { intros c' t Hin. apply (Hpast c'). apply elem_of_app. by left. }
    rewrite run_calls_app_state, run_calls_app_verdicts.
    rewrite accepted_app by (by rewrite run_calls_length).
    rewrite !run_calls_cons. cbn [run_calls fst snd accepted].
    rewrite app_nil_r, filter_app, <- (IH Hmono' now c Hpast').
    set (s := (run_calls calls init).2).
    destruct (String.eqb_spec c0 c) as [->|Hne].
    + rewrite window_of_is_allowed, filter_app, filter_window_later by done.
      by destruct (is_allowed t0 c s).1.
    + rewrite window_of_is_allowed_ne by done. cbn. by rewrite app_nil_r.
Qed.

(** The guarantee of the limiter: with a clock that never goes backwards,
    at the time of any call at most [RATE_LIMIT_PER_CHAT] (20) accepted
    calls of its conversation, that call included, lie inside the trailing
    window of [RATE_LIMIT_WINDOW] seconds. *)
Theorem at_most_twenty_accepted_per_window calls c now :
  let all := calls ++ [(c, now)] in
  clock_monotone all →
  (length (filter (in_window now) (accepted c all (run_calls all init).1))
     ≤ Config.RATE_LIMIT_PER_CHAT)%nat.
Proof.
  intros all Hmono.
  rewrite <- (stored_window_is_accepted all Hmono now c).
  - pose proof (stored_ok_run_calls all) as Hok.
    unfold window_of. destruct ((run_calls all init).2 !! c) as [ts|] eqn:E.
    + destruct (Hok c ts E) as [Hlen _].
      change (default [] (Some ts)) with ts.
      pose proof (sublist_length _ _ (sublist_filter (in_window now) ts)).
      lia.
    + change (default [] None) with (@nil datetime).
      rewrite filter_nil. cbn. lia.
  - intros c' t Hin. unfold all in Hin.
    apply elem_of_app in Hin as [Hin|Hin].
    + by eapply clock_monotone_last.
    + apply list_elem_of_singleton in Hin. injection Hin as _ ->. lia.
Qed.

(** Twenty-five calls of one conversation 170 seconds apart: twenty-three
    of them are accepted, and twenty of those lie inside the window of the
    last call. *)
Lemma at_most_twenty_accepted_per_window_witness :
  let step := timedelta_seconds 170 in
  let calls := map (λ n, ("c1", Z.of_nat n * step)) (seq 0 24) in
  let all := calls ++ [("c1", 24 * step)] in
  length (accepted "c1" all (run_calls all init).1) = 23%nat ∧
  (length (filter (in_window (24 * step)%Z)
                  (accepted "c1" all (run_calls all init).1)) ≤ 20)%nat.
Proof.
  intros step calls all. split; [compute_done|].
  apply (at_most_twenty_accepted_per_window calls "c1" (24 * step)).
  compute_done.
Defined.

End RateLimiterFacts.

(** ** Strings: facts *)

Module PyStrFacts.
Import Py Observations PyStr.

Lemma str_take_drop n s : str_take n s +:+ str_drop n s = s.
Proof.
  revert n. induction s as [|c s IH]; intros n; [done|].
  cbn [str_take str_drop]. destruct (is_continuation c).
  - change (String c (str_take n s) +:+ str_drop n s)
      with (String c (str_take n s +:+ str_drop n s)).
    by rewrite IH.
  - destruct n as [|n]; [done|].
    change (String c (str_take n s) +:+ str_drop n s)
      with (String c (str_take n s +:+ str_drop n s)).
    by rewrite IH.
Qed.

Lemma py_len_take n s : py_len (str_take n s) = Nat.min n (py_len s).
Proof.
  revert n. induction s as [|c s IH]; intros n; cbn [str_take py_len].
  - lia.
  - destruct (is_continuation c) eqn:Hc.
    + cbn [py_len]. rewrite Hc. apply IH.
    + destruct n as [|n]; cbn [py_len]; rewrite ?Hc, ?IH; lia.
Qed.

Lemma py_len_drop n s : py_len (str_drop n s) = (py_len s - n)%nat.
Proof.
  revert n. induction s as [|c s IH]; intros n; cbn [str_drop py_len].
  - lia.
  - destruct (is_continuation c) eqn:Hc; [apply IH|].
    destruct n as [|n]; [cbn [py_len]; rewrite Hc; lia|].
    rewrite IH. lia.
Qed.

Lemma str_drop_on_boundary n s : on_boundary (str_drop n s).
Proof.
  revert n. induction s as [|c s IH]; intros n; [done|].
  cbn [str_drop]. destruct (is_continuation c) eqn:Hc; [apply IH|].
  destruct n as [|n]; [done|apply IH].
Qed.

Lemma str_drop_0 s : on_boundary s → str_drop 0 s = s.
Proof. destruct s as [|c s]; [done|]. cbn. by intros ->. Qed.

Lemma str_drop_add a b s : str_drop (a + b) s = str_drop b (str_drop a s).
Proof.
  revert a. induction s as [|c s IH]; intros a; [by destruct b|].
  cbn [str_drop]. destruct (is_continuation c) eqn:Hc; [apply IH|].
  destruct a as [|a]; [|apply IH].
  cbn [Nat.add str_drop]. by rewrite Hc.
Qed.

Lemma str_take_all n s : (py_len s ≤ n)%nat → str_take n s = s.
Proof.
  revert n. induction s as [|c s IH]; intros n; [done|].
  cbn [py_len str_take]. destruct (is_continuation c).
  - intros Hn. by rewrite IH.
  - destruct n as [|n]; [lia|]. intros Hn. rewrite IH; [done|lia].
Qed.

Lemma py_len_0_boundary s : on_boundary s → py_len s = 0%nat → s = "".
Proof.
  destruct s as [|c s]; [done|]. cbn. intros ->. lia.
Qed.

Lemma str_slice_chunk i n s : str_slice i (i + n) s = str_take n (str_drop i s).
Proof. unfold str_slice. f_equal. lia. Qed.

Lemma chunks_concat n k s :
  on_boundary s → (py_len s ≤ k * n)%nat → str_concat (chunks n k s) = s.
Proof.
  revert s. induction k as [|k IH]; intros s Hb Hlen.
  - cbn. symmetry. apply py_len_0_boundary; [done|lia].
  - unfold chunks. cbn [seq map]. rewrite <- fmap_S_seq, <- list_fmap_compose.
    cbn [str_concat foldr]. fold (str_concat
      (((λ j, str_take n (str_drop (j * n) s)) ∘ S) <$> seq 0 k)).
    replace (((λ j, str_take n (str_drop (j * n) s)) ∘ S) <$> seq 0 k)
      with (chunks n k (str_drop n s)).
    + rewrite IH.
      * cbn [Nat.mul]. rewrite str_drop_0 by done. apply str_take_drop.
      * apply str_drop_on_boundary.
      * rewrite py_len_drop. lia.
    + unfold chunks. apply list_fmap_ext. intros _ j _. cbn.
      by rewrite <- str_drop_add.
Qed.

Lemma chunks_sized n k s :
  (0 < n)%nat → (k * n < py_len s + n)%nat →
  Forall (λ part, part ≠ "" ∧ (py_len part ≤ n)%nat) (chunks n k s).
Proof.
  intros Hn Hk. unfold chunks. apply Forall_fmap, Forall_forall.
  intros j Hj. apply elem_of_seq in Hj. cbn.
  assert (Hlen : py_len (str_take n (str_drop (j * n) s))
                 = Nat.min n (py_len s - j * n)).
  { by rewrite py_len_take, py_len_drop. }
  split; [|lia].
  intros Hempty. rewrite Hempty in Hlen. cbn in Hlen. nia.
Qed.

Lemma range_step_chunks n s :
  map (λ i, str_slice i (i + n) s) (range_step (py_len s) n) =
    chunks n ((py_len s + n - 1) / n) s.
Proof.
  unfold range_step, chunks. rewrite <- list_fmap_compose.
  apply list_fmap_ext. intros _ j _. cbn. apply str_slice_chunk.
Qed.

Lemma div_up_bounds len n :
  (0 < n)%nat →
  (len ≤ (len + n - 1) / n * n)%nat ∧ ((len + n - 1) / n * n < len + n)%nat.
Proof.
  intros Hn.
  pose proof (Nat.div_mod_eq (len + n - 1) n) as Hdm.
  pose proof (Nat.mod_upper_bound (len + n - 1) n) as Hmod.
  split; nia.
Qed.

End PyStrFacts.

(** ** database.py and bot.py: properties *)

Module BotFacts.
Import Py Observations PyStr AiClient Events RateLimiter Database Bot.
Import AiClientProofs AiClientFacts RateLimiterProofs PyStrFacts.

(** *** The conversation store *)

(** Without a client, or when the insert raises, [save_message] stores
    nothing.  Otherwise it stores exactly one row, which carries the
    arguments as they are except for the message, of which it keeps the
    first 2000 characters: the part kept and the part left out make up the
    message, the part kept has 2000 characters, or as many as the message
    has if those are fewer, and the part left out starts with a whole
    character; a message of at most 2000 characters is kept whole. *)
Theorem save_message_truncates :
  (∀ insert_raises uid chat ty uname message role,
     save_message false insert_raises uid chat ty uname message role = []) ∧
  (∀ e uid chat ty uname message role,
     save_message true (Some e) uid chat ty uname message role = []) ∧
  (∀ uid chat ty uname message role,
     ∃ kept rest,
       save_message true None uid chat ty uname message role =
         [ {| row_user_id := uid; row_chat_id := chat; row_chat_type := ty;
              row_username := uname; row_message := kept;
              row_role := role |} ] ∧
       message = kept +:+ rest ∧
       py_len kept = Nat.min 2000 (py_len message) ∧
       on_boundary rest ∧
       ((py_len message ≤ 2000)%nat → kept = message)).
Proof.
  split; [done|]. split; [done|].
  intros uid chat ty uname message role.
  exists (str_take 2000 message), (str_drop 2000 message).
  split; [done|]. split; [by rewrite str_take_drop|].
  split; [apply py_len_take|]. split; [apply str_drop_on_boundary|].
  apply str_take_all.
Qed.

(** A short question is stored whole; of 1500 two-byte characters followed
    by 1500 one-byte ones, the first 2000 characters (3500 bytes) are. *)
Lemma save_message_truncates_witness :
  save_message true None "7" "c1" "private" None "What is Cairo?" "user" =
    [ {| row_user_id := "7"; row_chat_id := "c1"; row_chat_type := "private";
         row_username := None; row_message := "What is Cairo?";
         row_role := "user" |} ] ∧
  map (λ r, (py_len (row_message r), String.length (row_message r)))
      (save_message true None "7" "c1" "private" None
         (str_repeat 1500 "é" +:+ str_repeat 1500 "e") "user") =
    [(2000, 3500)]%nat.
Proof.
  destruct (proj2 (proj2 save_message_truncates)
              "7" "c1" "private" None "What is Cairo?" "user")
    as (kept & rest & Hrows & _ & _ & _ & Hwhole).
  split; [|vm_compute; reflexivity].
  rewrite Hrows, Hwhole; [reflexivity|].
  apply Nat.leb_le. vm_compute. reflexivity.
Defined.

Lemma drop_rev_take {A} n (l : list A) :
  drop (length l - n) (rev l) = rev (take n l).
Proof.
  rewrite <- (take_drop n l) at 1 2.
  rewrite rev_app_distr, length_app.
  rewrite drop_app_length'; [done|].
  rewrite length_rev, length_take, length_drop. lia.
Qed.

(** The history sent to the service is made of the six newest rows the
    query returned, oldest first, whatever the number of rows returned. *)
Theorem history_is_six_newest rows :
  format_history (Some (get_chat_history true (inr rows))) =
    map (λ m, (format_role (role m), message m)) (rev (take 6 rows)).
Proof.
  rewrite format_history_map.
  destruct rows as [|r rows]; [done|].
  cbn [get_chat_history]. rewrite length_rev. by rewrite drop_rev_take.
Qed.

Lemma history_unavailable client e :
  format_history (Some (get_chat_history client (inl e))) = [] ∧
  (∀ result, format_history (Some (get_chat_history false result)) = []).
Proof. split; [by destruct client|done]. Qed.

(** *** Sending the response *)

Lemma part_length_pos : (0 < PART_LENGTH)%nat.
Proof. apply Nat.ltb_lt. reflexivity. Qed.

Lemma parts_of_chunks response :
  parts_of response =
    chunks PART_LENGTH
           ((py_len response + PART_LENGTH - 1) / PART_LENGTH) response.
Proof. exact (range_step_chunks PART_LENGTH response). Qed.

Lemma replies_app effs1 effs2 :
  replies (effs1 ++ effs2) = replies effs1 ++ replies effs2.
Proof.
  induction effs1 as [|eff effs1 IH]; [done|].
  destruct eff; cbn; by rewrite IH.
Qed.

Lemma replies_insert rows : replies (map Insert rows) = [].
Proof. by induction rows. Qed.

Lemma replies_ai evs : replies (map Ai evs) = [].
Proof. by induction evs. Qed.

Lemma send_parts_ok w k parts :
  (∀ j, answer_raises w j = None) →
  send_parts w k parts = (None, map (λ part, Reply part None true) parts).
Proof.
  intros Hok. revert k. induction parts as [|part parts IH]; intros k; [done|].
  cbn [send_parts map]. by rewrite Hok, IH.
Qed.

Lemma send_parts_within (P : string → Prop) w k parts :
  Forall P parts → Forall P (replies (send_parts w k parts).2).
Proof.
  intros HP. revert k. induction HP as [|part parts Hpart _ IH]; intros k.
  - constructor.
  - cbn [send_parts]. destruct (answer_raises w k); [constructor|].
    specialize (IH (S k)). destruct (send_parts w (S k) parts) as [r effs].
    cbn in *. by constructor.
Qed.

Lemma replies_reply_parts parts :
  replies (map (λ part, Reply part None true) parts) = parts.
Proof. induction parts as [|part parts IH]; [done|]. cbn. by rewrite IH. Qed.

Lemma send_response_sendable w u response :
  response ≠ "" → Forall sendable (replies (send_response w u response).2).
Proof.
  intros Hne. unfold send_response.
  destruct (PART_LENGTH <? py_len response)%nat eqn:Hlong.
  - apply send_parts_within. rewrite parts_of_chunks.
    apply chunks_sized; [apply part_length_pos|].
    apply div_up_bounds, part_length_pos.
  - apply Nat.ltb_ge in Hlong.
    destruct (answer_raises w 0%nat); [constructor|].
    cbn [snd replies]. apply Forall_singleton. by split.
Qed.

Lemma response_sent_whole_aux w u response :
  on_boundary response →
  (∀ k, answer_raises w k = None) →
  (send_response w u response).1 = None ∧
  str_concat (replies (send_response w u response).2) = response.
Proof.
  intros Hb Hok. unfold send_response.
  destruct (PART_LENGTH <? py_len response)%nat.
  - rewrite send_parts_ok by done. cbn [fst snd]. split; [done|].
    rewrite replies_reply_parts, parts_of_chunks.
    apply chunks_concat; [done|]. apply div_up_bounds, part_length_pos.
  - rewrite Hok. cbn [fst snd replies str_concat foldr]. split; [done|].
    apply app_str_nil_r.
Qed.

(** When Telegram takes every part, the bodies of the replies, put end to
    end, are the response: nothing is lost or repeated where a long response
    is cut. *)
Theorem response_sent_whole w u response :
  on_boundary response →
  (∀ k, answer_raises w k = None) →
  (send_response w u response).1 = None ∧
  str_concat (replies (send_response w u response).2) = response.
Proof. apply response_sent_whole_aux. Qed.

(** A response of 12000 characters, some of them of two bytes, goes out in
    three parts. *)
Lemma response_sent_whole_witness :
  let response := str_repeat 3000 "aé ." in
  let w := calm 0%Z [] (λ _, Events.served cairo_scenario) in
  let u := {| chat_type := "private"; chat_id := 7; user := Some (7%Z, None);
              text := "What is Cairo?"; message_id := 1; reply_to := None |} in
  map py_len (replies (send_response w u response).2) = [4000; 4000; 4000]%nat
  ∧ str_concat (replies (send_response w u response).2) = response.
Proof.
  intros response w u. split; [vm_compute; reflexivity|].
  apply (response_sent_whole w u response).
  - vm_compute. reflexivity.
  - intros k. reflexivity.
Defined.

(** *** The handler *)

Lemma answer_sendable cfg u w q :
  Forall sendable (replies (answer cfg u w q).2).
Proof.
  unfold answer. destruct (user u) as [[uid uname]|]; [|constructor].
  set (chat := str_int (chat_id u)).
  set (history := get_chat_history (db_client cfg) (select_result w)).
  destruct (retry_answer_nonempty q chat (Some history) (remote w))
    as (response & Hout & Hne).
  destruct (get_response q chat (Some history) (remote w)) as [out evs].
  cbn [fst] in Hout. subst out.
  pose proof (send_response_sendable w u response Hne) as Hsent.
  destruct (send_response w u response) as [[e|] sent]; cbn [snd] in *;
    rewrite !replies_app, ?replies_insert, ?replies_ai, ?app_nil_r; done.
Qed.

(** Every reply the handler sends, whichever path it takes, is one Telegram
    can take: it is not empty and has at most 4000 characters. *)
Theorem replies_sendable cfg u w b :
  Forall sendable (replies (handle_message cfg u w b).2).
Proof.
  assert (Hnotice : sendable MSG_RATE_LIMIT)
    by (split; [discriminate|apply Nat.leb_le; vm_compute; reflexivity]).
  assert (Hsorry : sendable MSG_SORRY)
    by (split; [discriminate|apply Nat.leb_le; vm_compute; reflexivity]).
  unfold handle_message.
  destruct (question cfg u) as [e|[q|]]; [constructor| |constructor].
  destruct (is_allowed (now w) (str_int (chat_id u)) (limiter b)) as [ok rq].
  destruct ok; cbn [negb].
  - destruct (typing_raises w); [constructor|].
    pose proof (answer_sendable cfg u w q) as Hans.
    destruct (answer cfg u w q) as [[e|] effs]; cbn [snd] in *;
      [|exact Hans].
    destruct (apology_raises w); [exact Hans|].
    cbn [snd replies]. rewrite replies_app. apply Forall_app.
    split; [exact Hans|]. apply Forall_singleton. exact Hsorry.
  - destruct (notice_raises w); [constructor|].
    apply Forall_singleton. exact Hnotice.
Qed.

(** A group message that does not mention the bot and either is no reply or
    replies to a message whose sender is known and is not the bot changes
    nothing: no counter, no rate-limit window, no reply.  A group message
    that replies to a message without a sender makes the handler raise
    [AttributeError], mentioned or not, again with nothing changed. *)
Theorem unaddressed_group_message_ignored cfg u w b :
  is_group u = true →
  (str_contains ("@" +:+ BOT_USERNAME cfg) (text u) = false →
   (reply_to u = None ∨
    ∃ author, reply_to u = Some (Some author) ∧ author ≠ bot_id cfg) →
   handle_message cfg u w b = (Handled, b, [])) ∧
  (reply_to u = Some None →
   handle_message cfg u w b = (Escaped AttributeError, b, [])).
Proof.
  intros Hgroup. split.
  - intros Hmention Hreply. unfold handle_message, question.
    rewrite Hgroup, Hmention.
    destruct Hreply as [->|(author & -> & Hne)]; [done|].
    by apply Z.eqb_neq in Hne as ->.
  - intros Hreply. unfold handle_message, question.
    by rewrite Hgroup, Hreply.
Qed.

(** In a supergroup: a reply to another member that does not mention the
    bot, and a message that mentions the bot in reply to a message without
    a sender. *)
Lemma unaddressed_group_message_ignored_witness :
  let u := {| chat_type := "supergroup"; chat_id := -1001;
              user := Some (7%Z, None); text := "gm @starknet";
              message_id := 5; reply_to := Some (Some 8%Z) |} in
  let v := {| chat_type := "supergroup"; chat_id := -1001;
              user := Some (7%Z, None); text := "@starknet_bot gm";
              message_id := 6; reply_to := Some None |} in
  let w := calm 0%Z [] (λ _, Events.served cairo_scenario) in
  handle_message default_config u w bot_init = (Handled, bot_init, []) ∧
  handle_message default_config v w bot_init =
    (Escaped AttributeError, bot_init, []).
Proof.
  intros u v w. split.
  - apply (unaddressed_group_message_ignored default_config u w bot_init);
      [reflexivity|reflexivity|].
    right. exists 8%Z. split; [reflexivity|discriminate].
  - apply (unaddressed_group_message_ignored default_config v w bot_init);
      reflexivity.
Defined.

(** A message that arrives while its chat has twenty recorded requests
    inside the window reaches neither the answering service nor the
    database: the handler counts it, sends at most the rate-limit notice,
    and records neither a success nor a failure. *)
Theorem denied_message_stops_at_limiter cfg u w b q :
  question cfg u = inr (Some q) →
  (Config.RATE_LIMIT_PER_CHAT
     ≤ count_in_window (now w) (str_int (chat_id u)) (limiter b))%nat →
  let r := handle_message cfg u w b in
  backend r.2 = [] ∧
  (r.2 = [] ∨ r.2 = [Reply MSG_RATE_LIMIT (Some (message_id u)) false]) ∧
  stats r.1.2 = log_message (stats b) ∧
  limiter r.1.2 = (is_allowed (now w) (str_int (chat_id u)) (limiter b)).2.
Proof.
  intros Hq Hdenied. apply is_allowed_verdict in Hdenied.
  unfold handle_message. rewrite Hq.
  destruct (is_allowed (now w) (str_int (chat_id u)) (limiter b)) as [ok rq].
  cbn [fst snd] in *. subst ok. cbn [negb].
  destruct (notice_raises w); cbn; auto.
Qed.

(** The twenty-first private message of a chat within twenty seconds. *)
Lemma denied_message_stops_at_limiter_witness :
  let u := {| chat_type := "private"; chat_id := 7; user := Some (7%Z, None);
              text := "What is Cairo?"; message_id := 21; reply_to := None |} in
  let b := {| limiter :=
                (run_calls (map (λ n, ("7", Z.of_nat n * 1000000)%Z) (seq 0 20))
                           init).2;
              stats := metrics_init |} in
  let w := calm 20000000%Z [] (λ _, Events.served cairo_scenario) in
  backend (handle_message default_config u w b).2 = [] ∧
  stats (handle_message default_config u w b).1.2 = log_message metrics_init.
Proof.
  intros u b w.
  destruct (denied_message_stops_at_limiter default_config u w b
              "What is Cairo?") as (Hback & _ & Hstats & _).
  - reflexivity.
  - compute_done.
  - split; [exact Hback|exact Hstats].
Defined.

Lemma handle_message_stats cfg u w b :
  let m := stats b in
  let m' := stats (handle_message cfg u w b).1.2 in
  (total_messages m ≤ total_messages m' ≤ S (total_messages m))%nat ∧
  (successful_responses m' + failed_responses m' + total_messages m
     ≤ successful_responses m + failed_responses m + total_messages m')%nat.
Proof.
  unfold handle_message.
  destruct (question cfg u) as [e|[q|]]; cbn; [lia| |lia].
  destruct (is_allowed (now w) (str_int (chat_id u)) (limiter b)) as [ok rq].
  destruct ok; cbn [negb].
  - destruct (typing_raises w); [cbn; lia|].
    destruct (answer cfg u w q) as [[e|] effs]; [|cbn; lia].
    destruct (apology_raises w); cbn; lia.
  - destruct (notice_raises w); cbn; lia.
Qed.

(** The counters stay consistent over any sequence of updates: successes
    and failures together never exceed the messages counted, and at most
    one message is counted per update. *)
Theorem metrics_consistent cfg inbox :
  let m := stats (handle_all cfg inbox bot_init).1 in
  (successful_responses m + failed_responses m ≤ total_messages m)%nat ∧
  (total_messages m ≤ length inbox)%nat.
Proof.
  assert (Hgen : ∀ b,
    let m0 := stats b in
    let m := stats (handle_all cfg inbox b).1 in
    (successful_responses m + failed_responses m + total_messages m0
       ≤ successful_responses m0 + failed_responses m0 + total_messages m)%nat ∧
    (total_messages m ≤ total_messages m0 + length inbox)%nat).
  { induction inbox as [|[u w] inbox IH]; intros b; [cbn; lia|].
    cbn [handle_all].
    pose proof (handle_message_stats cfg u w b) as Hstep.
    destruct (handle_message cfg u w b) as [[e b1] effs1].
    specialize (IH b1). destruct (handle_all cfg inbox b1) as [b2 effs2].
    cbn in *. lia. }
  specialize (Hgen bot_init). cbn in *. lia.
Qed.

(** When nothing fails on the way (the update has a sender, Telegram takes
    every call) an admitted question is answered in full: the replies put
    end to end are the answer of [get_response] for the question, the chat
    and the stored history, and a success is counted. *)
Theorem admitted_question_answered cfg u w b q uid uname response :
  question cfg u = inr (Some q) →
  (is_allowed (now w) (str_int (chat_id u)) (limiter b)).1 = true →
  typing_raises w = None →
  user u = Some (uid, uname) →
  (∀ k, answer_raises w k = None) →
  (get_response q (str_int (chat_id u))
     (Some (get_chat_history (db_client cfg) (select_result w)))
     (remote w)).1 = Returned response →
  on_boundary response →
  let r := handle_message cfg u w b in
  r.1.1 = Handled ∧
  str_concat (replies r.2) = response ∧
  stats r.1.2 = log_success (log_message (stats b)).
Proof.
  intros Hq Hok Htyping Huser Hanswer Hresp Hb.
  unfold handle_message. rewrite Hq.
  destruct (is_allowed (now w) (str_int (chat_id u)) (limiter b)) as [ok rq].
  cbn [fst] in Hok. subst ok. cbn [negb]. rewrite Htyping.
  unfold answer. rewrite Huser.
  destruct (get_response q (str_int (chat_id u))
              (Some (get_chat_history (db_client cfg) (select_result w)))
              (remote w)) as [out evs].
  cbn [fst] in Hresp. subst out.
  destruct (response_sent_whole_aux w u response Hb Hanswer) as [Hnone Hcat].
  destruct (send_response w u response) as [r sent]. cbn [fst snd] in *.
  subst r. cbn [fst snd]. split; [done|]. split; [|done].
  cbn [replies].
  rewrite !replies_app, !replies_insert, replies_ai, !app_nil_r.
  exact Hcat.
Qed.

(** The bot is mentioned in a group and the service streams the scenario of
    the specification. *)
Lemma admitted_question_answered_witness :
  let u := {| chat_type := "group"; chat_id := -1001; user := Some (7%Z, None);
              text := "@starknet_bot  What is Cairo? "; message_id := 5;
              reply_to := None |} in
  let w := calm 0%Z [] (λ _, Events.served cairo_scenario) in
  question default_config u = inr (Some "What is Cairo?") ∧
  str_concat (replies (handle_message default_config u w bot_init).2) =
    "Cairo is a language." +:+ SOURCES_HEADER +:+ nl +:+ "1. https://docs" ∧
  stats (handle_message default_config u w bot_init).1.2 =
    {| total_messages := 1; successful_responses := 1;
       failed_responses := 0 |}.
Proof.
  intros u w. split; [reflexivity|].
  destruct (admitted_question_answered default_config u w bot_init
              "What is Cairo?" 7 None
              ("Cairo is a language." +:+ SOURCES_HEADER
               +:+ nl +:+ "1. https://docs"))
    as (_ & Hcat & Hstats); try reflexivity.
  split; [exact Hcat|exact Hstats].
Defined.

End BotFacts.

(** ** The address of the channel: properties *)

Module UrlFacts.
Import Py Url.

Lemma unquote_quote_byte c rest :
  unquote_plus (quote_byte c +:+ rest) = String c (unquote_plus rest).
Proof.
  destruct c as [[] [] [] [] [] [] [] []]; reflexivity.
Qed.

Lemma unquote_quote s : unquote_plus (quote_plus s) = s.
Proof.
  induction s as [|c s IH]; [done|].
  cbn [quote_plus]. by rewrite unquote_quote_byte, IH.
Qed.

Lemma all_bytes_app p s1 s2 :
  all_bytes p (s1 +:+ s2) = all_bytes p s1 && all_bytes p s2.
Proof.
  induction s1 as [|c s1 IH]; [done|].
  change (String c s1 +:+ s2) with (String c (s1 +:+ s2)).
  cbn [all_bytes]. by rewrite IH, andb_assoc.
Qed.

Lemma quote_byte_quoted c : all_bytes quoted_byte (quote_byte c) = true.
Proof.
  destruct c as [[] [] [] [] [] [] [] []]; reflexivity.
Qed.

(** A quoted model name is made of letters, digits and [_.-~+%] only, so it
    cannot end a parameter or start another one; and quoting loses nothing:
    different names are quoted differently. *)
Theorem quote_plus_safe_and_faithful :
  (∀ name, all_bytes quoted_byte (quote_plus name) = true) ∧
  (∀ name1 name2, quote_plus name1 = quote_plus name2 → name1 = name2).
Proof.
  split.
  - intros name. induction name as [|c name IH]; [done|].
    cbn [quote_plus]. by rewrite all_bytes_app, quote_byte_quoted, IH.
  - intros name1 name2 Heq.
    by rewrite <- (unquote_quote name1), <- (unquote_quote name2), Heq.
Qed.

(** The default chat model of [config.py] against a name of the same
    length. *)
Lemma quote_plus_safe_and_faithful_witness :
  quote_plus "Claude 3.5 Sonnet" = "Claude+3.5+Sonnet" ∧
  quote_plus "Claude 3.5 Sonnet" ≠ quote_plus "Claude+3.5+Sonnet".
Proof.
  split; [reflexivity|].
  intros Heq.
  pose proof (proj2 quote_plus_safe_and_faithful _ _ Heq) as Hsame.
  discriminate Hsame.
Defined.

End UrlFacts.

(** ** A call of get_response as its caller sees it: proofs *)

Module AiClientCallProofs.
Import Py AiClient Events AiClientCall AiClientProofs.

Lemma receive_or_wait_ends attempt msgs fin text sources :
  receive_or_wait attempt msgs (Ends fin) text sources =
    Some (receive_loop attempt msgs fin text sources).
Proof.
  revert text sources. induction msgs as [|m msgs IH]; intros text sources.
  - by destruct fin.
  - cbn [receive_or_wait receive_loop].
    by destruct (on_message attempt m text sources).
Qed.


(** On a channel that ends, an attempt is the attempt of [AiClient]. *)
Lemma attempt_call_ending attempt frame env :
  attempt_call attempt frame (ending_env env) =
    (match (attempt_body attempt frame env).1 with
     | inl e => Raised e
     | inr s => Answered s
     end,
     (attempt_body attempt frame env).2).
Proof.
  unfold attempt_call, attempt_body, ending_env.
  cbn [svc_connect svc_send svc_incoming svc_ending].
  destruct (connect_raises env); [done|]. cbn [fst snd].
  destruct (send_raises env); [done|].
  rewrite receive_or_wait_ends.
  destruct (receive_loop attempt (incoming env) (ending env) "" (JArr []))
    as [text sources|r|e]; [|done..].
  by destruct (finish text sources).
Qed.

Lemma retry_call_ending attempts frame remote :
  retry_call attempts frame (λ k, ending_env (remote k)) =
    (result_of_outcome (retry_loop attempts frame remote).1,
     (retry_loop attempts frame remote).2).
Proof.
  induction attempts as [|attempt rest IH]; [done|].
  cbn [retry_call]. rewrite attempt_call_ending, retry_loop_cons. cbn zeta.
  destruct (attempt_body attempt frame (remote attempt)).1 as [e|answer];
    [|done].
  destruct (attempt =? 2)%nat; [done|]. by rewrite IH.
Qed.

Lemma format_rows_of_turns turns formatted :
  format_rows (map row_of_turn turns) formatted =
    inr (formatted
         ++ map (λ t, (format_role (role t), JStr (message t))) turns).
Proof.
  revert formatted. induction turns as [|t turns IH]; intros formatted.
  - cbn. by rewrite app_nil_r.
  - cbn [map format_rows row_of_turn dict_get]. cbn.
    rewrite IH, <- app_assoc. done.
Qed.

Lemma slice_from_map {A B} (f : A → B) start (l : list A) :
  slice_from start (map f l) = map f (slice_from start l).
Proof. unfold slice_from. by rewrite length_map, fmap_drop. Qed.

(** On rows that have both keys, with strings in them, and channels that
    end, the call is the call of [AiClient.get_response]. *)
Lemma get_response_call_agrees msg chat_id history remote :
  get_response_call msg chat_id (map row_of_turn <$> history)
                    (λ k, ending_env (remote k)) =
    (result_of_outcome (get_response msg chat_id history remote).1,
     (get_response msg chat_id history remote).2).
Proof.
  unfold get_response_call, get_response.
  assert (Hfmt : format_history_rows (map row_of_turn <$> history) =
                 inr (map (λ rm, (rm.1, JStr rm.2)) (format_history history))).
  { destruct history as [[|t turns]|]; [done| |done].
    cbn [fmap option_fmap option_map map format_history_rows].
    change (row_of_turn t :: map row_of_turn turns)
      with (map row_of_turn (t :: turns)).
    rewrite slice_from_map, format_rows_of_turns.
    rewrite format_history_map, slice_from_last6, <- list_fmap_compose.
    done. }
  rewrite Hfmt.
  replace (query_frame_rows msg chat_id
             (map (λ rm, (rm.1, JStr rm.2)) (format_history history)))
    with (query_frame msg chat_id (format_history history)).
  - apply retry_call_ending.
  - unfold query_frame, query_frame_rows. do 6 f_equal.
    rewrite <- list_fmap_compose. done.
Qed.











End AiClientCallProofs.
